(** * True Damerau-Levenshtein distance: the Go package [tdl]

    A shallow embedding of [damerau-levenshtein.go] and the properties of
    its engine [TrueDamerauLevenshtein]: construction by [New], the method
    [Distance], and the package-level shortcut that shares one engine.

    Conventions of the embedding.
    - Go's [int] is modelled by [Z] with exact arithmetic.  What the method
      computes are loop counters, string lengths and table cells; on an
      engine without stale entries every cell lies between 0 and the sum of
      the two lengths plus one ([cell_bounds], [Spec.inf]).  An engine holds
      [maxSize * maxSize] machine words, so the lengths it serves stay far
      below the square root of the range of [int] and no operation wraps.
    - A Go [string] is a sequence of bytes: Rocq's [string], read through
      [bytes] as a list of byte values in [0, 256).
    - A run-time panic (index out of range, [make] with a negative length)
      is the result [None]; a normal return is [Some].
    - The engine is mutated in place by the Go code; here every call returns
      the new engine state next to its result. *)

From Stdlib Require Import Strings.Ascii Strings.String ZArith Lia.
From stdpp Require Import base option list gmap strings.

Local Open Scope Z_scope.

(** ** Go strings *)

Definition byte_val (c : ascii) : Z := Z.of_N (N_of_ascii c).

Fixpoint bytes (s : string) : list Z :=
  match s with
  | EmptyString => []
  | String c s' => byte_val c :: bytes s'
  end.

(** [len(s)]: the number of bytes. *)
Definition len (s : string) : Z := Z.of_nat (length (bytes s)).

(** [s[k]]: panics outside [0 <= k < len(s)]. *)
Definition index (s : string) (k : Z) : option Z :=
  if k <? 0 then None else bytes s !! Z.to_nat k.

(** ** [for _, r := range s]: the code points of a string

    Go decodes UTF-8 while ranging over a string.  A byte below [0x80] is
    its own code point.  Otherwise the leading byte announces two, three or
    four bytes; if the sequence is truncated, has a byte outside
    [0x80..0xBF] where a continuation is due, is over-long, encodes a
    surrogate or exceeds [0x10FFFF], the loop yields [0xFFFD] and advances
    by one byte only. *)
Module Utf8.

Definition RuneError : Z := 65533.
Definition maxRune : Z := 1114111.

Definition is_cont (b : Z) : bool := (128 <=? b) && (b <=? 191).

Definition rune2 (b0 b1 : Z) : Z :=
  Z.lor (Z.shiftl (Z.land b0 31) 6) (Z.land b1 63).
Definition rune3 (b0 b1 b2 : Z) : Z :=
  Z.lor (Z.lor (Z.shiftl (Z.land b0 15) 12) (Z.shiftl (Z.land b1 63) 6))
        (Z.land b2 63).
Definition rune4 (b0 b1 b2 b3 : Z) : Z :=
  Z.lor (Z.lor (Z.lor (Z.shiftl (Z.land b0 7) 18)
                      (Z.shiftl (Z.land b1 63) 12))
               (Z.shiftl (Z.land b2 63) 6))
        (Z.land b3 63).

Fixpoint runes (s : list Z) : list Z :=
  match s with
  | [] => []
  | b0 :: s1 =>
    if b0 <? 128 then b0 :: runes s1
    else
      let bad := RuneError :: runes s1 in
      if (192 <=? b0) && (b0 <? 224) then
        match s1 with
        | b1 :: s2 =>
          let r := rune2 b0 b1 in
          if is_cont b1 && (127 <? r) then r :: runes s2 else bad
        | _ => bad
        end
      else if (224 <=? b0) && (b0 <? 240) then
        match s1 with
        | b1 :: b2 :: s3 =>
          let r := rune3 b0 b1 b2 in
          if is_cont b1 && is_cont b2 && (2047 <? r)
             && negb ((55296 <=? r) && (r <=? 57343))
          then r :: runes s3 else bad
        | _ => bad
        end
      else if (240 <=? b0) && (b0 <? 248) then
        match s1 with
        | b1 :: b2 :: b3 :: s4 =>
          let r := rune4 b0 b1 b2 b3 in
          if is_cont b1 && is_cont b2 && is_cont b3 && (65535 <? r)
             && (r <=? maxRune)
          then r :: runes s4 else bad
        | _ => bad
        end
      else bad
  end.

End Utf8.

(** ** Slices of slices of [int] *)

(** [m[i][j]], with Go's bounds checks. *)
Definition mget (m : list (list Z)) (i j : Z) : option Z :=
  if (i <? 0) || (j <? 0) then None
  else row ← m !! Z.to_nat i; row !! Z.to_nat j.

(** [m[i][j] = v], with Go's bounds checks. *)
Definition mset (m : list (list Z)) (i j v : Z) : option (list (list Z)) :=
  if (i <? 0) || (j <? 0) then None
  else
    row ← m !! Z.to_nat i;
    if decide (Z.to_nat j < length row)%nat
    then Some (<[Z.to_nat i := <[Z.to_nat j := v]> row]> m)
    else None.

(** [d[k]] on a Go map: the zero value when the key is absent. *)
Definition da_get (d : gmap Z Z) (k : Z) : Z := default 0 (d !! k).

(** ** Loops *)

(** [n] iterations of [body], the counter starting at [i] and stepping by
    one; a panic in the body ends the loop. *)
Fixpoint iterate {S : Type} (n : nat) (i : Z) (body : Z → S → option S)
    (s : S) : option S :=
  match n with
  | O => Some s
  | S n' => s' ← body i s; iterate n' (i + 1) body s'
  end.

(** [for i := lo; i <= hi; i++ { body }] *)
Definition for_upto {S : Type} (lo hi : Z) (body : Z → S → option S)
    (s : S) : option S :=
  iterate (Z.to_nat (hi + 1 - lo)) lo body s.

(** ** The package *)

(** [func minimum(is ...int) int]; [is[0]] panics on an empty argument
    list. *)
Definition minimum (is_ : list Z) : option Z :=
  min0 ← is_ !! 0%nat;
  Some (foldl (λ min i, if i <? min then i else min) min0 is_).

Record TrueDamerauLevenshtein : Type := mkTDL {
  maxSize : Z;
  matrix : list (list Z);
  da : gmap Z Z
}.

(** [func New(maxSize int) *TrueDamerauLevenshtein]; [make] panics on a
    negative length. *)
Definition New (maxSize : Z) : option TrueDamerauLevenshtein :=
  if maxSize <? 0 then None
  else
    let rows : list (list Z) := replicate (Z.to_nat maxSize) [] in
    Some {| maxSize := maxSize;
            matrix := (λ _, replicate (Z.to_nat maxSize) 0) <$> rows;
            da := ∅ |}.

(** The first two loops of [Distance]: the border of the matrix. *)
Definition init_rows (lenA : Z) (m : list (list Z)) : option (list (list Z)) :=
  for_upto 0 lenA (λ i m,
    m ← mset m (i + 1) 1 i;
    v ← mget m 0 0;
    mset m (i + 1) 0 v) m.

Definition init_cols (lenB : Z) (m : list (list Z)) : option (list (list Z)) :=
  for_upto 0 lenB (λ j m,
    m ← mset m 1 (j + 1) j;
    v ← mget m 0 0;
    mset m 0 (j + 1) v) m.

(** [for _, r := range a + b { t.da[r] = 0 }] *)
Definition reset_da (d : gmap Z Z) (a b : string) : gmap Z Z :=
  foldl (λ d r, <[r := 0]> d) d (Utf8.runes (bytes a ++ bytes b)).

(** The body of the inner loop, at row [i] and column [j]; the state is the
    matrix and the local [db]. *)
Definition inner_body (a b : string) (d : gmap Z Z) (i j : Z)
    (st : list (list Z) * Z) : option (list (list Z) * Z) :=
  let '(m, db) := st in
  bj ← index b (j - 1);
  let i1 := da_get d bj in
  let j1 := db in
  ai ← index a (i - 1);
  let '(cost, db) := if ai =? bj then (0, j) else (1, db) in
  x1 ← mget m i j;
  x2 ← mget m (i + 1) j;
  x3 ← mget m i (j + 1);
  x4 ← mget m i1 j1;
  v ← minimum [x1 + cost; x2 + 1; x3 + 1;
               x4 + (i - i1 - 1) + 1 + (j - j1 - 1)];
  m ← mset m (i + 1) (j + 1) v;
  Some (m, db).

(** The body of the outer loop, at row [i]; the state is the matrix and the
    map [t.da]. *)
Definition outer_body (a b : string) (lenB : Z) (i : Z)
    (st : list (list Z) * gmap Z Z) : option (list (list Z) * gmap Z Z) :=
  let '(m, d) := st in
  '(m, _) ← for_upto 1 lenB (inner_body a b d i) (m, 0);
  ai ← index a (i - 1);
  Some (m, <[ai := i]> d).

(** [func (t *TrueDamerauLevenshtein) Distance(a, b string) int] *)
Definition Distance (t : TrueDamerauLevenshtein) (a b : string)
    : option (Z * TrueDamerauLevenshtein) :=
  let lenA := len a in
  let lenB := len b in
  if lenA <? 1 then Some (lenB, t)
  else if lenB <? 1 then Some (lenA, t)
  else if maxSize t <? lenA then Some (-1, t)
  else if maxSize t <? lenB then Some (-1, t)
  else
    m ← mset (matrix t) 0 0 (lenA + lenB + 1);
    m ← init_rows lenA m;
    m ← init_cols lenB m;
    let d := reset_da (da t) a b in
    '(m, d) ← for_upto 1 lenA (outer_body a b lenB) (m, d);
    v ← mget m (lenA + 1) (lenB + 1);
    Some (v, {| maxSize := maxSize t; matrix := m; da := d |}).

(** [var tdl = New(100)] and the shortcut [func Distance(a, b string) int],
    which runs on the shared engine; [g] is the current state of [tdl]. *)
Definition tdl : option TrueDamerauLevenshtein := New 100.

Definition Distance_shortcut (g : TrueDamerauLevenshtein) (a b : string)
    : option (Z * TrueDamerauLevenshtein) :=
  Distance g a b.

(** The value a call returns, leaving out the state. *)
Definition result (r : option (Z * TrueDamerauLevenshtein)) : option Z :=
  fst <$> r.

(** ** Engine states *)

(** The matrix has [k] rows of [k] cells each. *)
Definition square (k : nat) (m : list (list Z)) : Prop :=
  length m = k ∧ ∀ row, row ∈ m → length row = k.

(** The shape [New] establishes and [Distance] keeps. *)
Definition wf_engine (t : TrueDamerauLevenshtein) : Prop :=
  0 <= maxSize t ∧ square (Z.to_nat (maxSize t)) (matrix t).

(** The engines a program can hold: built by [New], then used by calls of
    [Distance] that returned. *)
Inductive reachable : TrueDamerauLevenshtein → Prop :=
  | reachable_New k t :
      New k = Some t → reachable t
  | reachable_Distance t a b v t' :
      reachable t → Distance t a b = Some (v, t') → reachable t'.

(** No stale position is left for a byte of [b] that the reset loop of
    [Distance t a b] does not visit.  The loop visits the code points of
    [a + b], the lookups use the bytes of [b]: the two differ on bytes from
    [0x80] up. *)
Definition lastseen_clean (t : TrueDamerauLevenshtein) (a b : string) : Prop :=
  ∀ c, c ∈ bytes b → c ∉ Utf8.runes (bytes a ++ bytes b) → da_get (da t) c = 0.

(** All bytes below [0x80]. *)
Definition ascii_only (s : string) : Prop := ∀ c, c ∈ bytes s → c < 128.

(** ** The recurrence of Lowrance and Wagner, as the specification words it

    Sequences are 1-indexed: [a[1..m]], [b[1..n]].  [D] is indexed by matrix
    coordinates; [D (i+1) (j+1)] relates the first [i] characters of [a]
    to the first [j] characters of [b]. *)
Module Spec.
Section Recurrence.

Variables a b : list Z.

(** [s[p]], 1-indexed. *)
Definition at1 (s : list Z) (p : Z) : option Z :=
  if p <? 1 then None else s !! Z.to_nat (p - 1).

(** The most recent position among [1..k] at which [c] occurs in [s],
    and 0 when it does not. *)
Fixpoint last_seen_upto (c : option Z) (s : list Z) (k : nat) : Z :=
  match k with
  | O => 0
  | S k' =>
    if decide (s !! k' = c) then Z.of_nat (S k') else last_seen_upto c s k'
  end.

Definition last_seen (c : option Z) (s : list Z) (k : Z) : Z :=
  last_seen_upto c s (Z.to_nat k).

(** [D[0][0] = m + n + 1], above any distance. *)
Definition inf : Z := Z.of_nat (length a) + Z.of_nat (length b) + 1.

Definition cost (i j : Z) : Z := if decide (at1 a i = at1 b j) then 0 else 1.

(** The recurrence, unfolded at most [fuel] times. *)
Fixpoint D_fuel (fuel : nat) (r c : Z) : Z :=
  match fuel with
  | O => inf
  | S fuel' =>
    if (r <=? 0) || (c <=? 0) then inf
    else if c =? 1 then r - 1
    else if r =? 1 then c - 1
    else
      let i := r - 1 in
      let j := c - 1 in
      let i1 := last_seen (at1 b j) a (i - 1) in
      let j1 := last_seen (at1 a i) b (j - 1) in
      Z.min (Z.min (D_fuel fuel' i j + cost i j)
                   (D_fuel fuel' (i + 1) j + 1))
            (Z.min (D_fuel fuel' i (j + 1) + 1)
                   (D_fuel fuel' i1 j1 + (i - i1 - 1) + 1 + (j - j1 - 1)))
  end.

(** Every unfolding lowers [r + c], so [r + c] unfoldings are enough
    ([D_fuel_stable]). *)
Definition D (r c : Z) : Z := D_fuel (Z.to_nat (r + c)) r c.

End Recurrence.

(** Step 5: the value the specification returns for non-empty inputs. *)
Definition lw (a b : string) : Z :=
  D (bytes a) (bytes b) (len a + 1) (len b + 1).

End Spec.

(** The matrix holds the recurrence on the cells of a region. *)
Definition agrees (a b : list Z) (m : list (list Z)) (P : Z → Z → Prop) : Prop :=
  ∀ r c, P r c → mget m r c = Some (Spec.D a b r c).

(** The cells [Distance] has filled when it is about to compute the cell
    of row [i] and column [j] (matrix cell [(i+1, j+1)]): the border, the
    rows up to [i], and row [i+1] up to column [j]. *)
Definition filled (lenA lenB i j : Z) (r c : Z) : Prop :=
  0 <= r <= lenA + 1 ∧ 0 <= c <= lenB + 1 ∧
  (r <= 1 ∨ c <= 1 ∨ r <= i ∨ (r = i + 1 ∧ c <= j)).

(** The cells the first border loop has written before its iteration [i],
    with [matrix[0][0]] set beforehand: columns 0 and 1 of the rows up to
    [i], save [(0, 1)]. *)
Definition rows_done (i : Z) (r c : Z) : Prop :=
  0 <= r <= i ∧ 0 <= c <= 1 ∧ ¬ (r = 0 ∧ c = 1).

(** The same for the second border loop before its iteration [j]. *)
Definition cols_done (lenA j : Z) (r c : Z) : Prop :=
  rows_done (lenA + 1) r c ∨ (0 <= r <= 1 ∧ 1 <= c <= j).

(** Before row [i], the map holds for every byte of [b] its last position
    among the first [i - 1] bytes of [a]. *)
Definition da_tracks (a b : list Z) (d : gmap Z Z) (i : Z) : Prop :=
  ∀ c, c ∈ b → da_get d c = Spec.last_seen (Some c) a (i - 1).

(** A Go string from its bytes. *)
Definition string_of_bytes (l : list Z) : string :=
  foldr (λ x s, String (ascii_of_N (Z.to_N x)) s) EmptyString l.

(** ["\u00e9"], the letter e with an acute accent: two bytes in UTF-8, one
    code point, [0xE9], for the range loop. *)
Definition e_acute : string := string_of_bytes [195; 169].

(** ["bb\u00e9"], four bytes. *)
Definition bbe : string := "bb" +:+ e_acute.

(** Every entry of the table is 0 or a row of a call the engine served:
    at most [maxSize - 2]. *)
Definition da_bounded (t : TrueDamerauLevenshtein) : Prop :=
  ∀ c, 0 <= da_get (da t) c <= Z.max 0 (maxSize t - 2).

(** [New(10)], and the same engine after [Distance("bb\u00e9", "b")]
    returned (with 3). *)
Definition engine10 : TrueDamerauLevenshtein :=
  Eval vm_compute in default (mkTDL 0 [] ∅) (New 10).

Definition engine10_used : TrueDamerauLevenshtein :=
  Eval vm_compute in default engine10 (snd <$> Distance engine10 bbe "b").

(** * Slices and loops *)

Section Matrix.

Context (k : nat) (m : list (list Z)).
Hypothesis Hsq : square k m.

Lemma square_lookup (i : Z) :
  0 <= i < Z.of_nat k → ∃ row, m !! Z.to_nat i = Some row ∧ length row = k.
Proof using Hsq.
  intros Hi. destruct Hsq as [Hlen Hrows].
  destruct (lookup_lt_is_Some_2 m (Z.to_nat i)) as [row Hrow]; [lia|].
  exists row. split; [done|]. apply Hrows. by eapply list_elem_of_lookup_2.
Qed.

Lemma mget_is_Some (i j : Z) :
  0 <= i < Z.of_nat k → 0 <= j < Z.of_nat k → is_Some (mget m i j).
Proof using Hsq.
  intros Hi Hj. unfold mget.
  destruct (Z.ltb_spec i 0), (Z.ltb_spec j 0); try lia. simpl.
  destruct (square_lookup i Hi) as (row & -> & Hrow). simpl.
  apply lookup_lt_is_Some_2. lia.
Qed.

Lemma mset_spec (i j v : Z) :
  0 <= i < Z.of_nat k → 0 <= j < Z.of_nat k →
  ∃ m', mset m i j v = Some m' ∧ square k m' ∧
    ∀ i' j', mget m' i' j' =
             if decide (i' = i ∧ j' = j) then Some v else mget m i' j'.
Proof using Hsq.
  intros Hi Hj. unfold mset.
  destruct (Z.ltb_spec i 0), (Z.ltb_spec j 0); try lia. simpl.
  destruct (square_lookup i Hi) as (row & Hrow & Hlen). rewrite Hrow. simpl.
  destruct (decide _) as [_|Hn]; [|lia].
  eexists. split; [done|]. split.
  - destruct Hsq as [Hl Hrows]. split; [by rewrite length_insert|].
    intros row' [p Hp]%list_elem_of_lookup_1.
    destruct (decide (p = Z.to_nat i)) as [->|Hne].
    + rewrite list_lookup_insert_eq in Hp by lia.
      injection Hp as <-. by rewrite length_insert.
    + rewrite list_lookup_insert_ne in Hp by done.
      apply Hrows. by eapply list_elem_of_lookup_2.
  - intros i' j'. unfold mget.
    destruct (Z.ltb_spec i' 0), (Z.ltb_spec j' 0); simpl;
      try (destruct (decide _); [lia|done]).
    destruct (decide (i' = i)) as [->|Hne].
    + rewrite list_lookup_insert_eq by (destruct Hsq; lia).
      rewrite Hrow. simpl.
      destruct (decide (j' = j)) as [->|Hne'].
      * rewrite list_lookup_insert_eq by lia.
        destruct (decide _); [done|tauto].
      * rewrite list_lookup_insert_ne by lia.
        destruct (decide _); [lia|done].
    + rewrite list_lookup_insert_ne by lia.
      destruct (decide _); [lia|done].
Qed.

Lemma mset_square (i j v : Z) m' : mset m i j v = Some m' → square k m'.
Proof using Hsq.
  unfold mset. destruct (_ || _); [done|].
  destruct (m !! Z.to_nat i) as [row|] eqn:Hrow; [simpl|done].
  destruct (decide _); [|done]. intros [= <-].
  destruct Hsq as [Hl Hrows]. split; [by rewrite length_insert|].
  intros row' [p Hp]%list_elem_of_lookup_1.
  destruct (decide (p = Z.to_nat i)) as [->|Hne].
  - rewrite list_lookup_insert_eq in Hp by (by eapply lookup_lt_Some).
    injection Hp as <-. rewrite length_insert.
    apply Hrows. by eapply list_elem_of_lookup_2.
  - rewrite list_lookup_insert_ne in Hp by done.
    apply Hrows. by eapply list_elem_of_lookup_2.
Qed.

(** An index at or beyond [k] panics. *)
Lemma mset_out_of_range (i j v : Z) :
  Z.of_nat k <= i ∨ Z.of_nat k <= j → mset m i j v = None.
Proof using Hsq.
  intros Hij. unfold mset. destruct (_ || _); [done|].
  destruct (m !! Z.to_nat i) as [row|] eqn:Hrow; [simpl|done].
  destruct (decide _) as [Hlt|]; [|done].
  destruct Hsq as [Hl Hrows].
  pose proof (lookup_lt_Some _ _ _ Hrow).
  pose proof (Hrows row (list_elem_of_lookup_2 _ _ _ Hrow)). lia.
Qed.

End Matrix.

Section Loops.

Context {S : Type}.
Implicit Types (body : Z → S → option S).

(** The invariant rule: [Inv x] holds of the state before the iteration
    with counter [x]. *)
Lemma iterate_inv (Inv : Z → S → Prop) body n i s :
  Inv i s →
  (∀ x s, i <= x < i + Z.of_nat n → Inv x s →
          ∃ s', body x s = Some s' ∧ Inv (x + 1) s') →
  ∃ s', iterate n i body s = Some s' ∧ Inv (i + Z.of_nat n) s'.
Proof.
  revert i s. induction n as [|n IH]; intros i s Hi Hstep.
  - exists s. split; [done|]. by replace (i + Z.of_nat 0) with i by lia.
  - destruct (Hstep i s) as (s1 & Hb & H1); [lia|done|].
    destruct (IH (i + 1) s1 H1) as (s2 & Hit & H2).
    { intros x s' Hx. apply Hstep. lia. }
    exists s2. simpl. rewrite Hb. simpl. split; [done|].
    by replace (i + Z.of_nat (Datatypes.S n)) with (i + 1 + Z.of_nat n) by lia.
Qed.

Lemma for_upto_inv (Inv : Z → S → Prop) body lo hi s :
  lo <= hi + 1 →
  Inv lo s →
  (∀ x s, lo <= x <= hi → Inv x s →
          ∃ s', body x s = Some s' ∧ Inv (x + 1) s') →
  ∃ s', for_upto lo hi body s = Some s' ∧ Inv (hi + 1) s'.
Proof.
  intros Hle Hlo Hstep. unfold for_upto.
  destruct (iterate_inv Inv body (Z.to_nat (hi + 1 - lo)) lo s Hlo)
    as (s' & Hit & Hinv).
  { intros x s0 Hx. apply Hstep. lia. }
  exists s'. split; [done|].
  by replace (hi + 1) with (lo + Z.of_nat (Z.to_nat (hi + 1 - lo))) by lia.
Qed.

(** A loop panics when one of its iterations panics in every state the
    earlier ones can leave. *)
Lemma iterate_panics (Inv : S → Prop) body n i x s :
  Inv s →
  (∀ y s s', Inv s → body y s = Some s' → Inv s') →
  i <= x < i + Z.of_nat n →
  (∀ s, Inv s → body x s = None) →
  iterate n i body s = None.
Proof.
  intros Hs Hpres Hx Hfail. revert i s Hs Hx.
  induction n as [|n IH]; intros i s Hs Hx; [lia|]. simpl.
  destruct (decide (x = i)) as [->|Hne].
  - by rewrite Hfail.
  - destruct (body i s) as [s1|] eqn:Hb; [simpl|done].
    apply IH; [by eapply Hpres|lia].
Qed.

Lemma iterate_preserves (Inv : S → Prop) body n i s s' :
  (∀ y s s', Inv s → body y s = Some s' → Inv s') →
  Inv s → iterate n i body s = Some s' → Inv s'.
Proof.
  intros Hpres. revert i s. induction n as [|n IH]; intros i s Hs; simpl.
  - by intros [= <-].
  - destruct (body i s) as [s1|] eqn:Hb; [simpl|done].
    apply IH. by eapply Hpres.
Qed.

End Loops.

Lemma minimum_4 (x1 x2 x3 x4 : Z) :
  minimum [x1; x2; x3; x4] = Some (Z.min (Z.min x1 x2) (Z.min x3 x4)).
Proof.
  unfold minimum. simpl. rewrite Z.ltb_irrefl.
  destruct (Z.ltb_spec x2 x1);
    (match goal with |- context [x3 <? ?y] => destruct (Z.ltb_spec x3 y) end);
    (match goal with |- context [x4 <? ?y] => destruct (Z.ltb_spec x4 y) end);
    f_equal; lia.
Qed.

(** * The recurrence *)

Section RecurrenceFacts.

Import Spec.

Lemma last_seen_upto_bounds c s k :
  0 <= last_seen_upto c s k <= Z.of_nat k.
Proof.
  induction k as [|k IH]; simpl; [lia|]. destruct (decide _); lia.
Qed.

Lemma last_seen_bounds c s k : 0 <= last_seen c s k <= Z.max 0 k.
Proof.
  unfold last_seen. pose proof (last_seen_upto_bounds c s (Z.to_nat k)). lia.
Qed.

Lemma last_seen_0 c s : last_seen c s 0 = 0.
Proof. reflexivity. Qed.

(** One more position: the table entry after the row of [s[k+1]]. *)
Lemma last_seen_succ c s k :
  0 <= k →
  last_seen c s (k + 1) =
    if decide (at1 s (k + 1) = c) then k + 1 else last_seen c s k.
Proof.
  intros Hk. unfold last_seen, at1.
  replace (Z.to_nat (k + 1)) with (Datatypes.S (Z.to_nat k)) by lia.
  simpl. destruct (Z.ltb_spec (k + 1) 1); [lia|].
  replace (k + 1 - 1) with k by lia.
  destruct (decide _); [|done]. lia.
Qed.

Variables a b : list Z.

Lemma D_fuel_S fuel r c :
  D_fuel a b (Datatypes.S fuel) r c =
    if (r <=? 0) || (c <=? 0) then inf a b
    else if c =? 1 then r - 1
    else if r =? 1 then c - 1
    else
      let i := r - 1 in
      let j := c - 1 in
      let i1 := last_seen (at1 b j) a (i - 1) in
      let j1 := last_seen (at1 a i) b (j - 1) in
      Z.min (Z.min (D_fuel a b fuel i j + cost a b i j)
                   (D_fuel a b fuel (i + 1) j + 1))
            (Z.min (D_fuel a b fuel i (j + 1) + 1)
                   (D_fuel a b fuel i1 j1 + (i - i1 - 1) + 1 + (j - j1 - 1))).
Proof. reflexivity. Qed.

Lemma D_fuel_irrel f1 f2 r c :
  (Z.to_nat (r + c) ≤ f1)%nat → (Z.to_nat (r + c) ≤ f2)%nat →
  D_fuel a b f1 r c = D_fuel a b f2 r c.
Proof.
  revert f2 r c. induction f1 as [|f1 IH]; intros f2 r c H1 H2.
  - destruct f2 as [|f2]; [done|]. rewrite D_fuel_S. simpl.
    destruct (Z.leb_spec r 0), (Z.leb_spec c 0); simpl; try done; lia.
  - destruct f2 as [|f2].
    + rewrite D_fuel_S. simpl.
      destruct (Z.leb_spec r 0), (Z.leb_spec c 0); simpl; try done; lia.
    + rewrite !D_fuel_S.
      destruct (Z.leb_spec r 0), (Z.leb_spec c 0); simpl; try done.
      destruct (Z.eqb_spec c 1); [done|].
      destruct (Z.eqb_spec r 1); [done|].
      pose proof (last_seen_bounds (at1 b (c - 1)) a (r - 1 - 1)).
      pose proof (last_seen_bounds (at1 a (r - 1)) b (c - 1 - 1)).
      rewrite (IH f2 (r - 1) (c - 1)) by lia.
      rewrite (IH f2 (r - 1 + 1) (c - 1)) by lia.
      rewrite (IH f2 (r - 1) (c - 1 + 1)) by lia.
      rewrite (IH f2 (last_seen _ _ _) (last_seen _ _ _)) by lia.
      done.
Qed.

(** More fuel than [r + c] changes nothing. *)
Lemma D_fuel_stable fuel r c :
  (Z.to_nat (r + c) ≤ fuel)%nat → D_fuel a b fuel r c = D a b r c.
Proof. intros. unfold D. by apply D_fuel_irrel. Qed.

Lemma D_outside r c : r <= 0 ∨ c <= 0 → D a b r c = inf a b.
Proof.
  intros Hrc. unfold D. destruct (Z.to_nat (r + c)) as [|f]; [done|].
  rewrite D_fuel_S.
  destruct (Z.leb_spec r 0), (Z.leb_spec c 0); simpl; try done; lia.
Qed.

Lemma D_col1 r : 1 <= r → D a b r 1 = r - 1.
Proof.
  intros Hr. unfold D.
  destruct (Z.to_nat (r + 1)) as [|f] eqn:Hf; [lia|].
  rewrite D_fuel_S. destruct (Z.leb_spec r 0); [lia|]. done.
Qed.

Lemma D_row1 c : 1 <= c → D a b 1 c = c - 1.
Proof.
  intros Hc. unfold D.
  destruct (Z.to_nat (1 + c)) as [|f] eqn:Hf; [lia|].
  rewrite D_fuel_S. destruct (Z.leb_spec c 0); [lia|]. simpl.
  destruct (Z.eqb_spec c 1); [lia|done].
Qed.

(** Step 4 of the algorithm, for row [i] and column [j]. *)
Lemma D_step i j :
  1 <= i → 1 <= j →
  D a b (i + 1) (j + 1) =
    let i1 := last_seen (at1 b j) a (i - 1) in
    let j1 := last_seen (at1 a i) b (j - 1) in
    Z.min (Z.min (D a b i j + cost a b i j) (D a b (i + 1) j + 1))
          (Z.min (D a b i (j + 1) + 1)
                 (D a b i1 j1 + (i - i1 - 1) + 1 + (j - j1 - 1))).
Proof.
  intros Hi Hj. unfold D at 1.
  destruct (Z.to_nat (i + 1 + (j + 1))) as [|f] eqn:Hf; [lia|].
  rewrite D_fuel_S.
  destruct (Z.leb_spec (i + 1) 0), (Z.leb_spec (j + 1) 0); try lia. simpl.
  destruct (Z.eqb_spec (j + 1) 1); [lia|].
  destruct (Z.eqb_spec (i + 1) 1); [lia|].
  replace (i + 1 - 1) with i by lia. replace (j + 1 - 1) with j by lia.
  pose proof (last_seen_bounds (at1 b j) a (i - 1)).
  pose proof (last_seen_bounds (at1 a i) b (j - 1)).
  rewrite !D_fuel_stable by lia. done.
Qed.

Lemma cost_bounds i j : 0 <= cost a b i j <= 1.
Proof. unfold cost. destruct (decide _); lia. Qed.

Lemma D_fuel_nonneg fuel r c : 0 <= D_fuel a b fuel r c.
Proof.
  revert r c. induction fuel as [|f IH]; intros r c.
  - simpl. unfold inf. lia.
  - rewrite D_fuel_S.
    destruct (Z.leb_spec r 0), (Z.leb_spec c 0); simpl;
      try (unfold inf; lia).
    destruct (Z.eqb_spec c 1); [lia|].
    destruct (Z.eqb_spec r 1); [lia|].
    pose proof (last_seen_bounds (at1 b (c - 1)) a (r - 1 - 1)).
    pose proof (last_seen_bounds (at1 a (r - 1)) b (c - 1 - 1)).
    pose proof (cost_bounds (r - 1) (c - 1)).
    pose proof (IH (r - 1) (c - 1)). pose proof (IH (r - 1 + 1) (c - 1)).
    pose proof (IH (r - 1) (c - 1 + 1)).
    pose proof (IH (last_seen (at1 b (c - 1)) a (r - 1 - 1))
                   (last_seen (at1 a (r - 1)) b (c - 1 - 1))).
    lia.
Qed.

(** Every cell is a distance: never negative. *)
Lemma D_nonneg r c : 0 <= D a b r c.
Proof. apply D_fuel_nonneg. Qed.

Lemma D_fuel_upper fuel r c :
  (Z.to_nat (r + c) ≤ fuel)%nat → 1 <= r → 1 <= c →
  D_fuel a b fuel r c <= r + c - 2.
Proof.
  revert r c. induction fuel as [|f IH]; intros r c Hf Hr Hc; [lia|].
  rewrite D_fuel_S.
  destruct (Z.leb_spec r 0), (Z.leb_spec c 0); simpl; try lia.
  destruct (Z.eqb_spec c 1); [lia|].
  destruct (Z.eqb_spec r 1); [lia|].
  pose proof (cost_bounds (r - 1) (c - 1)).
  pose proof (IH (r - 1) (c - 1)). lia.
Qed.

(** The values stored for prefixes of lengths [r-1] and [c-1] stay below
    the sum of the two lengths: the machine arithmetic of the Go code
    never leaves the range of [int]. *)
Lemma cell_bounds r c : 1 <= r → 1 <= c → 0 <= D a b r c <= r + c - 2.
Proof.
  intros Hr Hc. split; [apply D_nonneg|]. by apply D_fuel_upper.
Qed.

End RecurrenceFacts.

(** Exchanging the two strings transposes the table. *)
Lemma D_fuel_sym a b fuel r c :
  Spec.D_fuel a b fuel r c = Spec.D_fuel b a fuel c r.
Proof.
  revert r c. induction fuel as [|f IH]; intros r c.
  - simpl. unfold Spec.inf. lia.
  - rewrite !D_fuel_S.
    assert (Spec.inf a b = Spec.inf b a) as Hinf by (unfold Spec.inf; lia).
    destruct (Z.leb_spec r 0), (Z.leb_spec c 0); simpl; try done.
    destruct (Z.eqb_spec c 1), (Z.eqb_spec r 1); try lia.
    assert (Spec.cost a b (r - 1) (c - 1) = Spec.cost b a (c - 1) (r - 1)) as ->.
    { unfold Spec.cost. do 2 destruct (decide _); congruence. }
    rewrite (IH (r - 1) (c - 1)), (IH (r - 1 + 1) (c - 1)),
      (IH (r - 1) (c - 1 + 1)), (IH (Spec.last_seen _ _ _)). lia.
Qed.

Lemma D_sym a b r c : Spec.D a b r c = Spec.D b a c r.
Proof.
  unfold Spec.D. replace (c + r) with (r + c) by lia. apply D_fuel_sym.
Qed.

(** A string against itself: the diagonal is zero. *)
Lemma D_diag a (i : nat) : Spec.D a a (Z.of_nat i + 1) (Z.of_nat i + 1) = 0.
Proof.
  induction i as [|i IH].
  - by rewrite D_col1.
  - replace (Z.of_nat (S i)) with (Z.of_nat i + 1) by lia.
    rewrite D_step by lia. simpl.
    assert (Spec.cost a a (Z.of_nat i + 1) (Z.of_nat i + 1) = 0) as Hc.
    { unfold Spec.cost. by destruct (decide _). }
    rewrite IH, Hc.
    pose proof (D_nonneg a a (Z.of_nat i + 1 + 1) (Z.of_nat i + 1)).
    pose proof (D_nonneg a a (Z.of_nat i + 1) (Z.of_nat i + 1 + 1)).
    set (p := Spec.last_seen _ _ _).
    pose proof (last_seen_bounds (Spec.at1 a (Z.of_nat i + 1)) a
                  (Z.of_nat i + 1 - 1)).
    pose proof (D_nonneg a a p p). lia.
Qed.

(** * [Distance] computes the recurrence *)

Lemma len_nonneg s : 0 <= len s.
Proof. unfold len. lia. Qed.

Lemma index_at1 s j : index s (j - 1) = Spec.at1 (bytes s) j.
Proof.
  unfold index, Spec.at1.
  destruct (Z.ltb_spec (j - 1) 0), (Z.ltb_spec j 1); try lia; done.
Qed.

Lemma at1_is_Some s j :
  1 <= j <= len s → ∃ x, Spec.at1 (bytes s) j = Some x ∧ x ∈ bytes s.
Proof.
  unfold len, Spec.at1. intros Hj. destruct (Z.ltb_spec j 1); [lia|].
  destruct (lookup_lt_is_Some_2 (bytes s) (Z.to_nat (j - 1))) as [x Hx]; [lia|].
  exists x. split; [done|]. by eapply list_elem_of_lookup_2.
Qed.

Lemma da_get_insert d k v c :
  da_get (<[k := v]> d) c = if decide (k = c) then v else da_get d c.
Proof.
  unfold da_get. destruct (decide (k = c)) as [->|Hne].
  - by rewrite lookup_insert_eq.
  - by rewrite lookup_insert_ne.
Qed.

Lemma da_get_reset_list (l : list Z) d c :
  da_get (foldl (λ d r, <[r := 0]> d) d l) c =
    if decide (c ∈ l) then 0 else da_get d c.
Proof.
  revert d. induction l as [|r l IH]; intros d.
  - case_decide as Hin; [|done]. by apply elem_of_nil in Hin.
  - cbn [foldl]. rewrite IH, da_get_insert.
    destruct (decide (c ∈ r :: l)) as [Hc|Hc];
      destruct (decide (c ∈ l)) as [Hin|Hnin];
      destruct (decide (r = c)) as [Heq|Hne]; try done.
    + apply elem_of_cons in Hc as [->|]; done.
    + exfalso. apply Hc. by right.
    + exfalso. apply Hc. by right.
    + exfalso. apply Hc. subst r. by left.
Qed.

(** After the reset loop an entry is 0 where a code point of [a + b] was
    visited and unchanged elsewhere. *)
Lemma da_get_reset d a b c :
  da_get (reset_da d a b) c =
    if decide (c ∈ Utf8.runes (bytes a ++ bytes b)) then 0 else da_get d c.
Proof. apply da_get_reset_list. Qed.

Lemma agrees_weaken a b m (P Q : Z → Z → Prop) :
  (∀ r c, Q r c → P r c) → agrees a b m P → agrees a b m Q.
Proof. intros HQP HP r c HQ. by apply HP, HQP. Qed.

(** Storing the value of the recurrence extends the region by one cell. *)
Lemma agrees_mset a b k m (P : Z → Z → Prop) r0 c0 :
  square k m → agrees a b m P →
  0 <= r0 < Z.of_nat k → 0 <= c0 < Z.of_nat k →
  ∃ m', mset m r0 c0 (Spec.D a b r0 c0) = Some m' ∧ square k m' ∧
        agrees a b m' (λ r c, P r c ∨ (r = r0 ∧ c = c0)).
Proof.
  intros Hsq HP Hr Hc.
  destruct (mset_spec k m Hsq r0 c0 (Spec.D a b r0 c0) Hr Hc)
    as (m' & Hset & Hsq' & Hget).
  exists m'. split; [done|]. split; [done|].
  intros r c Hrc. rewrite Hget.
  destruct (decide _) as [[-> ->]|Hne]; [done|].
  destruct Hrc as [Hrc|Hrc]; [by apply HP|tauto].
Qed.

(** Inclusions between regions are linear arithmetic. *)
Ltac region :=
  repeat match goal with H : agrees _ _ _ _ |- _ => clear H end;
  unfold filled, cols_done, rows_done; intros; simpl in *; lia.

Section Refinement.

Variables (a b : string) (k : nat).

Let A := bytes a.
Let B := bytes b.
Let lenA := len a.
Let lenB := len b.

Hypothesis HlenA : 1 <= lenA <= Z.of_nat k - 2.
Hypothesis HlenB : 1 <= lenB <= Z.of_nat k - 2.

(** The first border loop. *)
Lemma init_rows_spec m :
  square k m → agrees A B m (rows_done 0) →
  ∃ m', init_rows lenA m = Some m' ∧ square k m' ∧
        agrees A B m' (rows_done (lenA + 1)).
Proof using HlenA.
  intros Hsq Hag. unfold init_rows.
  apply (for_upto_inv (λ i m, square k m ∧ agrees A B m (rows_done i)));
    [lia|done|].
  clear m Hsq Hag. intros i m Hi [Hsq Hag].
  destruct (agrees_mset A B k m _ (i + 1) 1 Hsq Hag) as (m1 & Hs1 & Hsq1 & Hag1);
    [lia|lia|].
  rewrite D_col1 in Hs1 by lia. replace (i + 1 - 1) with i in Hs1 by lia.
  rewrite Hs1. simpl.
  rewrite (Hag1 0 0) by (left; region). simpl.
  destruct (agrees_mset A B k m1 _ (i + 1) 0 Hsq1 Hag1) as (m2 & Hs2 & Hsq2 & Hag2);
    [lia|lia|].
  rewrite (D_outside A B (i + 1) 0) in Hs2 by lia.
  rewrite (D_outside A B 0 0) by lia.
  exists m2. split; [done|]. split; [done|].
  eapply agrees_weaken; [|exact Hag2]. region.
Qed.

(** The second border loop. *)
Lemma init_cols_spec m :
  square k m → agrees A B m (rows_done (lenA + 1)) →
  ∃ m', init_cols lenB m = Some m' ∧ square k m' ∧
        agrees A B m' (filled lenA lenB 1 1).
Proof using HlenA HlenB.
  intros Hsq Hag. unfold init_cols.
  destruct (for_upto_inv
    (λ j m, square k m ∧ agrees A B m (cols_done lenA j))
    (λ j m, m ← mset m 1 (j + 1) j; v ← mget m 0 0; mset m 0 (j + 1) v)
    0 lenB m) as (m' & Hloop & Hsq' & Hag'); [lia| |..].
  - split; [done|]. eapply agrees_weaken; [|exact Hag]. region.
  - clear m Hsq Hag. intros j m Hj [Hsq Hag].
    destruct (agrees_mset A B k m _ 1 (j + 1) Hsq Hag)
      as (m1 & Hs1 & Hsq1 & Hag1); [lia|lia|].
    rewrite D_row1 in Hs1 by lia. replace (j + 1 - 1) with j in Hs1 by lia.
    rewrite Hs1. simpl.
    rewrite (Hag1 0 0) by (left; left; region). simpl.
    destruct (agrees_mset A B k m1 _ 0 (j + 1) Hsq1 Hag1)
      as (m2 & Hs2 & Hsq2 & Hag2); [lia|lia|].
    rewrite (D_outside A B 0 (j + 1)) in Hs2 by lia.
    rewrite (D_outside A B 0 0) by lia.
    exists m2. split; [done|]. split; [done|].
    eapply agrees_weaken; [|exact Hag2]. region.
  - exists m'. split; [done|]. split; [done|].
    eapply agrees_weaken; [|exact Hag']. region.
Qed.

(** One cell of the main loop. *)
Lemma inner_body_spec d i j m db :
  1 <= i <= lenA → 1 <= j <= lenB →
  square k m → agrees A B m (filled lenA lenB i j) →
  da_tracks A B d i →
  db = Spec.last_seen (Spec.at1 A i) B (j - 1) →
  ∃ m' db', inner_body a b d i j (m, db) = Some (m', db') ∧
    square k m' ∧ agrees A B m' (filled lenA lenB i (j + 1)) ∧
    db' = Spec.last_seen (Spec.at1 A i) B (j + 1 - 1).
Proof using HlenA HlenB.
  intros Hi Hj Hsq Hag Hda Hdb. unfold inner_body.
  destruct (at1_is_Some b j Hj) as (bj & Hbj & Hbj_in).
  destruct (at1_is_Some a i Hi) as (ai & Hai & _).
  rewrite !index_at1. fold A B in Hbj, Hai, Hbj_in |- *.
  rewrite Hbj, Hai. cbn [mbind option_bind].
  rewrite (Hda bj Hbj_in), <- Hbj.
  pose proof (last_seen_bounds (Spec.at1 B j) A (i - 1)) as Hi1.
  pose proof (last_seen_bounds (Spec.at1 A i) B (j - 1)) as Hj1.
  set (i1 := Spec.last_seen (Spec.at1 B j) A (i - 1)) in *.
  set (j1 := Spec.last_seen (Spec.at1 A i) B (j - 1)) in *.
  assert ((if ai =? bj then (0, j) else (1, db)) =
          (Spec.cost A B i j, Spec.last_seen (Spec.at1 A i) B (j + 1 - 1)))
    as ->.
  { replace (j + 1 - 1) with (j - 1 + 1) by lia.
    rewrite last_seen_succ by lia.
    replace (j - 1 + 1) with j by lia.
    unfold Spec.cost. rewrite Hai, Hbj.
    destruct (Z.eqb_spec ai bj) as [->|Hne].
    - destruct (decide (Some bj = Some bj)); [|done].
      by destruct (decide (Some bj = Some bj)).
    - destruct (decide (Some ai = Some bj)) as [[=]|_]; [done|].
      destruct (decide (Some bj = Some ai)) as [[=]|_]; [done|].
      rewrite Hdb. unfold j1. by rewrite Hai. }
  rewrite (Hag i j) by region.
  rewrite (Hag (i + 1) j) by region.
  rewrite (Hag i (j + 1)) by region.
  rewrite Hdb. fold j1.
  rewrite (Hag i1 j1) by region.
  cbn [mbind option_bind]. rewrite minimum_4. cbn [mbind option_bind].
  destruct (agrees_mset A B k m _ (i + 1) (j + 1) Hsq Hag)
    as (m' & Hset & Hsq' & Hag'); [lia|lia|].
  rewrite (D_step A B i j) in Hset by lia. cbv zeta in Hset.
  fold i1 j1 in Hset. rewrite Hset. cbn [mbind option_bind].
  eexists _, _. split; [done|]. split; [done|]. split; [|by rewrite Hai].
  eapply agrees_weaken; [|exact Hag']. region.
Qed.

(** One row of the main loop. *)
Lemma outer_body_spec d i m :
  1 <= i <= lenA →
  square k m → agrees A B m (filled lenA lenB i 1) →
  da_tracks A B d i →
  ∃ m' d', outer_body a b lenB i (m, d) = Some (m', d') ∧
    square k m' ∧ agrees A B m' (filled lenA lenB (i + 1) 1) ∧
    da_tracks A B d' (i + 1).
Proof using HlenA HlenB.
  intros Hi Hsq Hag Hda. unfold outer_body.
  destruct (for_upto_inv
    (λ j (st : list (list Z) * Z),
       square k st.1 ∧ agrees A B st.1 (filled lenA lenB i j) ∧
       st.2 = Spec.last_seen (Spec.at1 A i) B (j - 1))
    (inner_body a b d i) 1 lenB (m, 0))
    as ([m' db'] & Hloop & Hsq' & Hag' & _); [lia|done|..].
  - intros j [m0 db0] Hj (Hsq0 & Hag0 & Hdb0). cbn [fst snd] in *.
    destruct (inner_body_spec d i j m0 db0 Hi Hj Hsq0 Hag0 Hda Hdb0)
      as (m1 & db1 & Hb & Hsq1 & Hag1 & Hdb1).
    exists (m1, db1). by rewrite Hb.
  - cbn [fst snd] in *. rewrite Hloop. cbn [mbind option_bind].
    destruct (at1_is_Some a i Hi) as (ai & Hai & _).
    rewrite index_at1, Hai. cbn [mbind option_bind].
    eexists _, _. split; [done|]. split; [done|]. split.
    + eapply agrees_weaken; [|exact Hag']. region.
    + intros c Hc. rewrite da_get_insert.
      replace (i + 1 - 1) with (i - 1 + 1) by lia.
      rewrite last_seen_succ by lia.
      replace (i - 1 + 1) with i by lia. fold A in Hai. rewrite Hai.
      rewrite (Hda c Hc).
      destruct (decide (ai = c)) as [->|Hne].
      * by destruct (decide (Some c = Some c)).
      * by destruct (decide (Some ai = Some c)) as [[=]|_].
Qed.

(** The main loop fills the table and leaves the recurrence's last cell
    at [(lenA + 1, lenB + 1)]. *)
Lemma main_loop_spec d m :
  square k m → agrees A B m (filled lenA lenB 1 1) →
  da_tracks A B d 1 →
  ∃ m' d', for_upto 1 lenA (outer_body a b lenB) (m, d) = Some (m', d') ∧
    square k m' ∧ mget m' (lenA + 1) (lenB + 1) = Some (Spec.lw a b).
Proof using HlenA HlenB.
  intros Hsq Hag Hda.
  destruct (for_upto_inv
    (λ i (st : list (list Z) * gmap Z Z),
       square k st.1 ∧ agrees A B st.1 (filled lenA lenB i 1) ∧
       da_tracks A B st.2 i)
    (outer_body a b lenB) 1 lenA (m, d))
    as ([m' d'] & Hloop & Hsq' & Hag' & _); [lia|done|..].
  - intros i [m0 d0] Hi (Hsq0 & Hag0 & Hda0). cbn [fst snd] in *.
    destruct (outer_body_spec d0 i m0 Hi Hsq0 Hag0 Hda0)
      as (m1 & d1 & Hb & Hsq1 & Hag1 & Hda1).
    exists (m1, d1). by rewrite Hb.
  - cbn [fst snd] in *. exists m', d'. split; [done|]. split; [done|].
    apply Hag'. region.
Qed.

End Refinement.

(** * Engine states: shape and the table of last positions *)

Lemma New_Some k t :
  New k = Some t →
  0 <= k ∧ maxSize t = k ∧ da t = ∅ ∧
  matrix t = replicate (Z.to_nat k) (replicate (Z.to_nat k) 0).
Proof.
  unfold New. destruct (Z.ltb_spec k 0); [done|]. intros [= <-]. simpl.
  repeat split; [done|]. by rewrite fmap_replicate.
Qed.

Lemma New_is_Some k : 0 <= k → is_Some (New k).
Proof. intros Hk. unfold New. destruct (Z.ltb_spec k 0); [lia|]. eauto. Qed.

Lemma square_replicate n : square n (replicate n (replicate n 0)).
Proof.
  split; [by rewrite length_replicate|].
  intros row [-> _]%elem_of_replicate. by rewrite length_replicate.
Qed.

Lemma New_wf k t : New k = Some t → wf_engine t.
Proof.
  intros (Hk & Hmax & _ & Hm)%New_Some. unfold wf_engine.
  rewrite Hmax, Hm. split; [done|]. apply square_replicate.
Qed.

Lemma init_rows_square k n m m' :
  square k m → init_rows n m = Some m' → square k m'.
Proof.
  intros Hsq. unfold init_rows, for_upto.
  apply iterate_preserves; [|done]. clear. intros i m m' Hsq Hb.
  apply bind_Some in Hb as (m1 & H1 & Hb).
  apply bind_Some in Hb as (v & _ & H2).
  eapply mset_square; [|exact H2]. by eapply mset_square.
Qed.

Lemma init_cols_square k n m m' :
  square k m → init_cols n m = Some m' → square k m'.
Proof.
  intros Hsq. unfold init_cols, for_upto.
  apply iterate_preserves; [|done]. clear. intros i m m' Hsq Hb.
  apply bind_Some in Hb as (m1 & H1 & Hb).
  apply bind_Some in Hb as (v & _ & H2).
  eapply mset_square; [|exact H2]. by eapply mset_square.
Qed.

Lemma inner_body_square k a b d i j st st' :
  square k st.1 → inner_body a b d i j st = Some st' → square k st'.1.
Proof.
  destruct st as [m db]. intros Hsq. unfold inner_body.
  intros (bj & _ & Hb)%bind_Some.
  apply bind_Some in Hb as (ai & _ & Hb).
  destruct (if ai =? bj then (0, j) else (1, db)) as [cost db'].
  do 5 apply bind_Some in Hb as (? & _ & Hb).
  apply bind_Some in Hb as (m' & Hset & [= <-]). by eapply mset_square.
Qed.

Lemma outer_body_square k a b lenB i st st' :
  square k st.1 → outer_body a b lenB i st = Some st' → square k st'.1.
Proof.
  destruct st as [m d]. intros Hsq. unfold outer_body.
  intros ([m1 db] & Hloop & Hb)%bind_Some.
  apply bind_Some in Hb as (ai & _ & [= <-]). simpl.
  eapply (iterate_preserves (λ st : list (list Z) * Z, square k st.1))
    in Hloop; [done| |done].
  intros. by eapply inner_body_square.
Qed.

(** A call that returns leaves an engine of the same shape and capacity. *)
Lemma Distance_wf t a b v t' :
  wf_engine t → Distance t a b = Some (v, t') →
  wf_engine t' ∧ maxSize t' = maxSize t.
Proof.
  intros [Hk Hsq]. unfold Distance.
  destruct (len a <? 1); [by intros [= <- <-]|].
  destruct (len b <? 1); [by intros [= <- <-]|].
  destruct (maxSize t <? len a); [by intros [= <- <-]|].
  destruct (maxSize t <? len b); [by intros [= <- <-]|].
  intros (m0 & H0 & Hb)%bind_Some.
  apply bind_Some in Hb as (m1 & H1 & Hb).
  apply bind_Some in Hb as (m2 & H2 & Hb).
  apply bind_Some in Hb as ([m3 d3] & H3 & Hb).
  apply bind_Some in Hb as (v' & _ & [= <- <-]). simpl.
  split; [|done]. split; [done|]. simpl.
  eapply (iterate_preserves
            (λ st : list (list Z) * gmap Z Z,
               square (Z.to_nat (maxSize t)) st.1)) in H3; [done| |].
  - intros. by eapply outer_body_square.
  - simpl. eapply init_cols_square; [|exact H2].
    eapply init_rows_square; [|exact H1]. by eapply mset_square.
Qed.

Lemma reachable_wf t : reachable t → wf_engine t.
Proof.
  induction 1 as [k t HN|t a b v t' _ IH HD]; [by eapply New_wf|].
  by destruct (Distance_wf _ _ _ _ _ IH HD).
Qed.

(** A new engine has no stale entry. *)
Lemma lastseen_clean_empty t a b : da t = ∅ → lastseen_clean t a b.
Proof. intros Hd c _ _. unfold da_get. by rewrite Hd, lookup_empty. Qed.

Lemma lastseen_clean_New k t a b : New k = Some t → lastseen_clean t a b.
Proof. intros (_ & _ & Hd & _)%New_Some. by apply lastseen_clean_empty. Qed.

(** A byte below [0x80] is one of the code points the range loop visits:
    it can neither start nor continue a longer sequence. *)
Lemma runes_ascii_aux (n : nat) s c :
  (length s ≤ n)%nat → c ∈ s → c < 128 → c ∈ Utf8.runes s.
Proof.
  revert s. induction n as [|n IH]; intros s Hlen Hin Hc.
  { destruct s; [by apply elem_of_nil in Hin|simpl in Hlen; lia]. }
  destruct s as [|b0 s1]; [by apply elem_of_nil in Hin|]. simpl in Hlen.
  cbn [Utf8.runes]. destruct (Z.ltb_spec b0 128) as [Hb0|Hb0].
  { apply elem_of_cons in Hin as [->|Hin]; [by left|].
    right. apply IH; [lia|done..]. }
  apply elem_of_cons in Hin as [->|Hin]; [lia|].
  assert (c ∈ Utf8.RuneError :: Utf8.runes s1) as Hbad.
  { right. apply IH; [lia|done..]. }
  assert (∀ x, Utf8.is_cont x = true → c ≠ x) as Hcont.
  { unfold Utf8.is_cont. intros x Hx ->. lia. }
  destruct (_ && _); [|destruct (_ && _); [|destruct (_ && _); [|done]]].
  - destruct s1 as [|b1 s2]; [done|].
    destruct (Utf8.is_cont b1) eqn:H1; [|done]. simpl.
    destruct (_ <? _); [|done]. simpl in Hlen.
    apply elem_of_cons in Hin as [->|Hin]; [by destruct (Hcont _ H1)|].
    right. apply IH; [lia|done..].
  - destruct s1 as [|b1 [|b2 s3]]; [done..|].
    destruct (Utf8.is_cont b1) eqn:H1; [|done].
    destruct (Utf8.is_cont b2) eqn:H2; [|done]. simpl.
    destruct (_ && _); [|done]. simpl in Hlen.
    apply elem_of_cons in Hin as [->|Hin]; [by destruct (Hcont _ H1)|].
    apply elem_of_cons in Hin as [->|Hin]; [by destruct (Hcont _ H2)|].
    right. apply IH; [lia|done..].
  - destruct s1 as [|b1 [|b2 [|b3 s4]]]; [done..|].
    destruct (Utf8.is_cont b1) eqn:H1; [|done].
    destruct (Utf8.is_cont b2) eqn:H2; [|done].
    destruct (Utf8.is_cont b3) eqn:H3; [|done]. simpl.
    destruct (_ && _); [|done]. simpl in Hlen.
    apply elem_of_cons in Hin as [->|Hin]; [by destruct (Hcont _ H1)|].
    apply elem_of_cons in Hin as [->|Hin]; [by destruct (Hcont _ H2)|].
    apply elem_of_cons in Hin as [->|Hin]; [by destruct (Hcont _ H3)|].
    right. apply IH; [lia|done..].
Qed.

Lemma runes_ascii s c : c ∈ s → c < 128 → c ∈ Utf8.runes s.
Proof. by apply (runes_ascii_aux (length s)). Qed.

(** For a second string of bytes below [0x80] the reset loop clears every
    entry the call reads, whatever the engine went through. *)
Lemma lastseen_clean_ascii t a b : ascii_only b → lastseen_clean t a b.
Proof.
  intros Hb c Hc Hnot. exfalso. apply Hnot.
  apply runes_ascii; [|by apply Hb]. apply elem_of_app. by right.
Qed.

(** * The method [Distance] *)

(** Within [maxSize - 2], and with no stale table entry in the way, the
    call returns the last cell of the recurrence. *)
Lemma Distance_refines t a b :
  wf_engine t → lastseen_clean t a b →
  1 <= len a <= maxSize t - 2 → 1 <= len b <= maxSize t - 2 →
  ∃ t', Distance t a b = Some (Spec.lw a b, t') ∧
        wf_engine t' ∧ maxSize t' = maxSize t.
Proof.
  intros Hwf Hclean Ha Hb.
  cut (∃ t', Distance t a b = Some (Spec.lw a b, t')).
  { intros [t' Ht']. exists t'. split; [done|]. by eapply Distance_wf. }
  destruct Hwf as [Hk Hsq]. set (k := Z.to_nat (maxSize t)) in *.
  assert (1 <= len a <= Z.of_nat k - 2) as Ha' by lia.
  assert (1 <= len b <= Z.of_nat k - 2) as Hb' by lia.
  unfold Distance.
  destruct (Z.ltb_spec (len a) 1); [lia|].
  destruct (Z.ltb_spec (len b) 1); [lia|].
  destruct (Z.ltb_spec (maxSize t) (len a)); [lia|].
  destruct (Z.ltb_spec (maxSize t) (len b)); [lia|].
  destruct (agrees_mset (bytes a) (bytes b) k (matrix t) (λ _ _, False) 0 0)
    as (m0 & Hs0 & Hsq0 & Hag0); [done|by intros ? ? []|lia|lia|].
  rewrite D_outside in Hs0 by lia. unfold Spec.inf in Hs0. fold (len a) (len b) in Hs0.
  rewrite Hs0. cbn [mbind option_bind].
  destruct (init_rows_spec a b k Ha' m0) as (m1 & Hs1' & Hsq1 & Hag1); [done| |].
  { eapply agrees_weaken; [|exact Hag0]. region. }
  rewrite Hs1'. cbn [mbind option_bind].
  destruct (init_cols_spec a b k Ha' Hb' m1) as (m2 & Hs2' & Hsq2 & Hag2);
    [done..|].
  rewrite Hs2'. cbn [mbind option_bind].
  destruct (main_loop_spec a b k Ha' Hb' (reset_da (da t) a b) m2)
    as (m3 & d3 & Hs3' & Hsq3 & Hget); [done..| |].
  { intros c Hc. rewrite da_get_reset. rewrite last_seen_0.
    destruct (decide _); [done|]. by apply Hclean. }
  rewrite Hs3'. cbn [mbind option_bind]. rewrite Hget. cbn [mbind option_bind].
  eauto.
Qed.

(** The guards of [Distance], in the order of the [switch]. *)
Lemma Distance_empty_a t a b : len a = 0 → Distance t a b = Some (len b, t).
Proof. intros Ha. unfold Distance. by rewrite Ha. Qed.

Lemma Distance_empty_b t a b : len b = 0 → Distance t a b = Some (len a, t).
Proof.
  intros Hb. unfold Distance. rewrite Hb.
  destruct (Z.ltb_spec (len a) 1); [|done].
  pose proof (len_nonneg a). do 2 f_equal. lia.
Qed.

Lemma Distance_over_capacity t a b :
  1 <= len a → 1 <= len b → maxSize t < len a ∨ maxSize t < len b →
  Distance t a b = Some (-1, t).
Proof.
  intros Ha Hb Hcap. unfold Distance.
  destruct (Z.ltb_spec (len a) 1); [lia|].
  destruct (Z.ltb_spec (len b) 1); [lia|].
  destruct (Z.ltb_spec (maxSize t) (len a)); [done|].
  destruct (Z.ltb_spec (maxSize t) (len b)); [done|lia].
Qed.

(** Past the guards, a string of [maxSize - 1] or [maxSize] bytes runs one
    of the border loops off the matrix. *)
Lemma Distance_boundary_panics t a b :
  wf_engine t →
  1 <= len a <= maxSize t → 1 <= len b <= maxSize t →
  maxSize t - 1 <= len a ∨ maxSize t - 1 <= len b →
  Distance t a b = None.
Proof.
  intros [Hk Hsq] Ha Hb Hedge. set (k := Z.to_nat (maxSize t)) in *.
  unfold Distance.
  destruct (Z.ltb_spec (len a) 1); [lia|].
  destruct (Z.ltb_spec (len b) 1); [lia|].
  destruct (Z.ltb_spec (maxSize t) (len a)); [lia|].
  destruct (Z.ltb_spec (maxSize t) (len b)); [lia|].
  destruct (mset (matrix t) 0 0 _) as [m0|] eqn:Hs0; [|done].
  cbn [mbind option_bind].
  pose proof (mset_square k _ Hsq _ _ _ _ Hs0) as Hsq0.
  destruct (decide (maxSize t - 1 <= len a)) as [Hea|Hea].
  - unfold init_rows, for_upto.
    rewrite (iterate_panics (square k) _ _ 0 (maxSize t - 1) m0); [done..| |lia|].
    + intros i m m' Hm Hbody.
      apply bind_Some in Hbody as (m1 & Hs1 & Hbody).
      apply bind_Some in Hbody as (v & _ & Hs2).
      eapply mset_square; [|exact Hs2]. by eapply mset_square.
    + intros m Hm. rewrite (mset_out_of_range k m Hm); [done|lia].
  - destruct (init_rows (len a) m0) as [m1|] eqn:Hs1'; [|done].
    cbn [mbind option_bind].
    pose proof (init_rows_square k _ _ _ Hsq0 Hs1') as Hsq1.
    unfold init_cols, for_upto.
    rewrite (iterate_panics (square k) _ _ 0 (maxSize t - 1) m1); [done..| |lia|].
    + intros i m m' Hm Hbody.
      apply bind_Some in Hbody as (m2 & Hs1 & Hbody).
      apply bind_Some in Hbody as (v & _ & Hs2).
      eapply mset_square; [|exact Hs2]. by eapply mset_square.
    + intros m Hm. rewrite (mset_out_of_range k m Hm); [done|lia].
Qed.

(** The recurrence can be read off one run on a new engine. *)
Lemma lw_by_run k t a b v :
  New k = Some t →
  1 <= len a <= k - 2 → 1 <= len b <= k - 2 →
  result (Distance t a b) = Some v → Spec.lw a b = v.
Proof.
  intros HN Ha Hb Hrun.
  destruct (New_Some _ _ HN) as (_ & Hmax & _).
  destruct (Distance_refines t a b) as (t' & Ht' & _);
    [by eapply New_wf|by eapply lastseen_clean_New|lia..|].
  rewrite Ht' in Hrun. by injection Hrun.
Qed.

Lemma ascii_only_Forall s : Forall (λ c, c < 128) (bytes s) → ascii_only s.
Proof. intros H c Hc. by eapply (proj1 (Forall_forall _ _) H). Qed.

(** * What holds on engines without stale entries

    The two theorems below are the behaviour the calls have in common on
    every engine of the right shape whose table has no stale entry for the
    strings at hand: all new engines, and all engines when the second
    string has bytes below [0x80] only. *)

(** The five outcomes of a call. *)
Lemma Distance_cases t a b :
  wf_engine t → lastseen_clean t a b →
  (len a = 0 ∧ result (Distance t a b) = Some (len b)) ∨
  (1 <= len a ∧ len b = 0 ∧ result (Distance t a b) = Some (len a)) ∨
  (1 <= len a ∧ 1 <= len b ∧ (maxSize t < len a ∨ maxSize t < len b) ∧
   result (Distance t a b) = Some (-1)) ∨
  (1 <= len a <= maxSize t ∧ 1 <= len b <= maxSize t ∧
   (maxSize t - 1 <= len a ∨ maxSize t - 1 <= len b) ∧
   result (Distance t a b) = None) ∨
  (1 <= len a <= maxSize t - 2 ∧ 1 <= len b <= maxSize t - 2 ∧
   result (Distance t a b) = Some (Spec.lw a b)).
Proof.
  intros Hwf Hclean. pose proof (len_nonneg a). pose proof (len_nonneg b).
  destruct (decide (len a = 0)) as [Ha|Ha].
  { left. by rewrite Distance_empty_a. }
  destruct (decide (len b = 0)) as [Hb|Hb].
  { right; left. rewrite Distance_empty_b by done. split_and!; first [done|lia]. }
  destruct (decide (maxSize t < len a ∨ maxSize t < len b)) as [Hcap|Hcap].
  { do 2 right; left. rewrite Distance_over_capacity by lia.
    split_and!; first [done|lia]. }
  destruct (decide (maxSize t - 1 <= len a ∨ maxSize t - 1 <= len b))
    as [Hedge|Hedge].
  { do 3 right; left. rewrite Distance_boundary_panics by (done || lia).
    split_and!; first [done|lia]. }
  do 4 right.
  destruct (Distance_refines t a b) as (t' & -> & _); [done|done|lia..|].
  split_and!; first [done|lia].
Qed.

(** Earlier calls do not matter. *)
Theorem Distance_history_independent t1 t2 a b :
  wf_engine t1 → wf_engine t2 → maxSize t1 = maxSize t2 →
  lastseen_clean t1 a b → lastseen_clean t2 a b →
  result (Distance t1 a b) = result (Distance t2 a b).
Proof.
  intros Hwf1 Hwf2 Hmax Hc1 Hc2.
  destruct (Distance_cases t1 a b Hwf1 Hc1)
    as [(?&->)|[(?&?&->)|[(?&?&?&->)|[(?&?&?&->)|(?&?&->)]]]];
  destruct (Distance_cases t2 a b Hwf2 Hc2)
    as [(?&->)|[(?&?&->)|[(?&?&?&->)|[(?&?&?&->)|(?&?&->)]]]];
  first [done | exfalso; lia].
Qed.

(** Exchanging the strings does not change the outcome. *)
Theorem Distance_symmetric t1 t2 a b :
  wf_engine t1 → wf_engine t2 → maxSize t1 = maxSize t2 →
  lastseen_clean t1 a b → lastseen_clean t2 b a →
  result (Distance t1 a b) = result (Distance t2 b a).
Proof.
  intros Hwf1 Hwf2 Hmax Hc1 Hc2.
  assert (Spec.lw a b = Spec.lw b a) as Hsym by apply D_sym.
  destruct (Distance_cases t1 a b Hwf1 Hc1)
    as [(?&->)|[(?&?&->)|[(?&?&?&->)|[(?&?&?&->)|(?&?&->)]]]];
  destruct (Distance_cases t2 b a Hwf2 Hc2)
    as [(?&->)|[(?&?&->)|[(?&?&?&->)|[(?&?&?&->)|(?&?&->)]]]];
  first [done | by rewrite Hsym | f_equal; lia | exfalso; lia].
Qed.

(** * The properties of the specification *)

(** C1 (the code departs from the claim).  The claim: for non-empty [a] and
    [b] of at most [maxSize] bytes, [Distance] returns the last cell of the
    recurrence.  The matrix [New] allocates has [maxSize] rows and columns,
    two short of what the border loops index: on the engine [New(3)] the
    call [Distance("abc", "abd")], both strings within [maxSize], panics,
    where the recurrence gives 1. *)
Theorem Distance_within_maxSize_panics :
  ∃ t, New 3 = Some t ∧
       1 <= len "abc" <= maxSize t ∧ 1 <= len "abd" <= maxSize t ∧
       Distance t "abc" "abd" = None ∧ Spec.lw "abc" "abd" = 1.
Proof.
  eexists. split; [reflexivity|].
  split; [by vm_compute|]. split; [by vm_compute|]. split; [by vm_compute|].
  eapply (lw_by_run 5); [reflexivity|by vm_compute..].
Qed.

(** C2 (the code departs from the claim).  The claim: on [New(k)] two
    non-empty strings of exactly [k] bytes are served.  They pass the guards
    and the first border loop, which runs up to row [k + 1], indexes row [k]
    of a matrix whose rows are [0..k-1]: every such call panics. *)
Theorem Distance_at_capacity_panics k t a b :
  New k = Some t → 1 <= k → len a = k → len b = k →
  Distance t a b = None.
Proof.
  intros HN Hk Ha Hb. destruct (New_Some _ _ HN) as (_ & Hmax & _).
  apply Distance_boundary_panics; [by eapply New_wf|lia..].
Qed.

Lemma Distance_at_capacity_panics_witness :
  ∃ t, New 1 = Some t ∧ Distance t "a" "a" = None.
Proof.
  eexists. split; [reflexivity|].
  eapply (Distance_at_capacity_panics 1); [reflexivity|lia|reflexivity..].
Defined.

(** C3 (the code departs from the claim).  The claim: [New(maxSize)]
    allocates [(maxSize+2) × (maxSize+2)] zeros and an empty map.  The map
    is empty and the cells are zero, but the matrix is [maxSize × maxSize]:
    it has no cell [(maxSize, maxSize)]. *)
Theorem New_allocates_maxSize_square k t :
  New k = Some t →
  maxSize t = k ∧ da t = ∅ ∧
  length (matrix t) = Z.to_nat k ∧
  (∀ row, row ∈ matrix t → row = replicate (Z.to_nat k) 0) ∧
  mget (matrix t) k k = None.
Proof.
  intros HN. destruct (New_Some _ _ HN) as (Hk & Hmax & Hd & Hm).
  split; [done|]. split; [done|]. rewrite Hm.
  split; [by rewrite length_replicate|]. split.
  - by intros row [-> _]%elem_of_replicate.
  - unfold mget. destruct (_ || _); [done|].
    rewrite (proj1 (lookup_replicate_None _ _ _)); [done|lia].
Qed.

Lemma New_allocates_maxSize_square_witness :
  ∃ t, New 1 = Some t ∧ matrix t = [[0]] ∧ mget (matrix t) 1 1 = None.
Proof.
  eexists. split; [reflexivity|].
  split; [reflexivity|].
  eapply (New_allocates_maxSize_square 1). reflexivity.
Defined.

(** C4, as stated, fails: an empty operand is answered before the capacity
    is looked at.  On [New(1)], [Distance("", "ab")] is 2, not the sentinel,
    although ["ab"] is longer than [maxSize]. *)
Lemma Distance_sentinel_counterexample :
  ∃ t, New 1 = Some t ∧
    ¬ (result (Distance t "" "ab") = Some (-1) ↔
       maxSize t < len "" ∨ maxSize t < len "ab").
Proof.
  eexists. split; [reflexivity|]. intros [_ Hback].
  assert (result (Distance {| maxSize := 1; matrix := [[0]]; da := ∅ |} "" "ab")
          = Some (-1)) as Hres.
  { apply Hback. right. by vm_compute. }
  vm_compute in Hres. discriminate Hres.
Qed.

(** C4, amended.  On an engine of the shape [New] builds, with no stale
    table entry in the way, and for strings of every length: [Distance]
    returns -1 exactly when both strings are non-empty and one of them is
    longer than [maxSize].  An empty operand, a pair within [maxSize] that
    is served and a pair within [maxSize] on which the call panics never
    give -1. *)
Theorem Distance_sentinel t a b :
  wf_engine t → lastseen_clean t a b →
  (result (Distance t a b) = Some (-1) ↔
   1 <= len a ∧ 1 <= len b ∧ (maxSize t < len a ∨ maxSize t < len b)).
Proof.
  intros Hwf Hclean.
  pose proof (len_nonneg a). pose proof (len_nonneg b).
  pose proof (D_nonneg (bytes a) (bytes b) (len a + 1) (len b + 1)) as Hnn.
  fold (Spec.lw a b) in Hnn.
  destruct (Distance_cases t a b Hwf Hclean)
    as [(?&->)|[(?&?&->)|[(?&?&?&->)|[(?&?&?&->)|(?&?&->)]]]].
  - split; [intros [= ?]; lia|lia].
  - split; [intros [= ?]; lia|lia].
  - split; [lia|done].
  - split; [done|lia].
  - split; [intros [= ?]; lia|lia].
Qed.

Lemma Distance_sentinel_witness :
  ∃ t, New 3 = Some t ∧
    (result (Distance t "kitten" "sit") = Some (-1) ↔
     1 <= len "kitten" ∧ 1 <= len "sit" ∧
     (maxSize t < len "kitten" ∨ maxSize t < len "sit")).
Proof.
  eexists. split; [reflexivity|].
  apply Distance_sentinel.
  - apply (New_wf 3). reflexivity.
  - apply (lastseen_clean_New 3). reflexivity.
Defined.

(** Off the amended claim: a stale table entry can even yield -1 for a
    pair within capacity.  After [Distance("bbé", "b")] on the shared
    engine, [Distance] of ["b"] and the bytes [62 62 C3] is -1. *)
Example Distance_stale_entry_yields_sentinel :
  (g ← tdl; '(_, g) ← Distance_shortcut g bbe "b";
   result (Distance_shortcut g "b" (string_of_bytes [98; 98; 195])))
  = Some (-1).
Proof. by vm_compute. Qed.

(** C5 (the code departs from the claim).  The claim: what a call returns
    does not depend on earlier calls.  The reset loop ranges over the code
    points of [a + b] and the lookups use bytes, so the entries of the bytes
    [0xC3] and [0xA9] of ["bbé"] survive the reset.  On the shared
    engine, [Distance("b", "bbé")] is 3 at first and 0 once
    [Distance("bbé", "b")] has run. *)
Theorem Distance_depends_on_history :
  (g ← tdl; result (Distance_shortcut g "b" bbe)) = Some 3 ∧
  (g ← tdl; '(_, g) ← Distance_shortcut g bbe "b";
   result (Distance_shortcut g "b" bbe)) = Some 0.
Proof. split; by vm_compute. Qed.

(** The value of the recurrence on two given strings of bytes below
    [0x80], from one run on [New(9)]; then the call on any engine. *)
Ltac scenario v :=
  match goal with
  | Hwf : wf_engine ?t |- result (Distance ?t ?a ?b) = _ =>
    let t' := fresh "t'" in
    let Ht' := fresh "Ht'" in
    destruct (Distance_refines t a b) as (t' & Ht' & _);
    [ exact Hwf
    | apply lastseen_clean_ascii, ascii_only_Forall; vm_compute;
      repeat constructor
    | unfold len; cbn [bytes length]; lia
    | unfold len; cbn [bytes length]; lia
    | rewrite Ht', (lw_by_run 9 _ a b v eq_refl); [reflexivity|by vm_compute..] ]
  end.

(** C6, as stated, fails in one of its six values: on the shared engine
    [Distance("a cat", "an act")] is 2 (insert [n], exchange [c] and [a]),
    not 3. *)
Lemma Distance_a_cat_an_act_counterexample :
  ∃ g, tdl = Some g ∧
    result (Distance_shortcut g "a cat" "an act") = Some 2 ∧
    result (Distance_shortcut g "a cat" "an act") ≠ Some 3.
Proof. eexists. split; [reflexivity|]. split; by vm_compute. Qed.

(** C6, amended: the six values, with 2 for ["a cat"] and ["an act"].  The
    strings are ASCII, so the values are the same on every engine, used or
    not, whose [maxSize] is at least 9. *)
Theorem Distance_concrete_scenarios t :
  wf_engine t → 9 <= maxSize t →
  result (Distance t "" "") = Some 0 ∧
  result (Distance t "kitten" "sitting") = Some 3 ∧
  result (Distance t "ab" "ba") = Some 1 ∧
  result (Distance t "ca" "abc") = Some 2 ∧
  result (Distance t "a cat" "an act") = Some 2 ∧
  result (Distance t "book" "back") = Some 2.
Proof.
  intros Hwf Hmax.
  split; [by rewrite Distance_empty_a|].
  split; [scenario 3|]. split; [scenario 1|]. split; [scenario 2|].
  split; [scenario 2|scenario 2].
Qed.

Lemma Distance_concrete_scenarios_witness :
  ∃ g, tdl = Some g ∧
    result (Distance g "" "") = Some 0 ∧
    result (Distance g "kitten" "sitting") = Some 3 ∧
    result (Distance g "ab" "ba") = Some 1 ∧
    result (Distance g "ca" "abc") = Some 2 ∧
    result (Distance g "a cat" "an act") = Some 2 ∧
    result (Distance g "book" "back") = Some 2.
Proof.
  eexists. split; [reflexivity|].
  apply Distance_concrete_scenarios.
  - apply (New_wf 100). reflexivity.
  - simpl. lia.
Defined.

(** C7.  An empty operand is answered first, on every engine and whatever
    the other string: [Distance("", s)] and [Distance(s, "")] are [len(s)],
    [Distance("", "")] is 0, and the engine is left as it was. *)
Theorem Distance_empty_operand t s :
  Distance t "" s = Some (len s, t) ∧
  Distance t s "" = Some (len s, t) ∧
  Distance t "" "" = Some (0, t).
Proof.
  split; [by apply Distance_empty_a|].
  split; [by apply Distance_empty_b|by apply Distance_empty_a].
Qed.

(** C8, as stated, fails: a string longer than [maxSize] is refused, also
    against itself.  On [New(1)], [Distance("ab", "ab")] is -1. *)
Lemma Distance_identity_counterexample :
  ∃ t, New 1 = Some t ∧
    result (Distance t "ab" "ab") = Some (-1) ∧
    result (Distance t "ab" "ab") ≠ Some 0.
Proof. eexists. split; [reflexivity|]. split; by vm_compute. Qed.

(** C8, amended.  On an engine of the shape [New] builds, with no stale
    table entry in the way, [Distance(s, s)] is 0 for every [s] that is
    empty or of at most [maxSize - 2] bytes, and -1 for every [s] of more
    than [maxSize] bytes. *)
Theorem Distance_identity t s :
  wf_engine t → lastseen_clean t s s →
  len s = 0 ∨ len s <= maxSize t - 2 ∨ maxSize t < len s →
  ∃ t', Distance t s s = Some (if maxSize t <? len s then -1 else 0, t').
Proof.
  intros Hwf Hclean Hlen. pose proof (len_nonneg s).
  destruct Hwf as [Hk Hsq].
  destruct (Z.ltb_spec (maxSize t) (len s)) as [Hcap|Hcap].
  { exists t. apply Distance_over_capacity; lia. }
  destruct (decide (len s = 0)) as [H0|H0].
  { exists t. rewrite Distance_empty_a by done. by rewrite H0. }
  destruct (Distance_refines t s s) as (t' & Ht' & _); [done|done|lia..|].
  exists t'. rewrite Ht'. do 2 f_equal.
  unfold Spec.lw, len. apply D_diag.
Qed.

Lemma Distance_identity_witness :
  ∃ t, New 3 = Some t ∧ ∃ t', Distance t "a" "a" = Some (0, t').
Proof.
  eexists. split; [reflexivity|].
  match goal with
  | |- ∃ t', Distance ?t _ _ = _ => change (∃ t', Distance t "a" "a" =
      Some (if maxSize t <? len "a" then -1 else 0, t'))
  end.
  apply (Distance_identity _ "a").
  - apply (New_wf 3). reflexivity.
  - apply (lastseen_clean_New 3). reflexivity.
  - right. left. vm_compute. discriminate.
Defined.

(** C9 (the code departs from the claim).  The claim:
    [Distance(a, b) = Distance(b, a)].  Through the table entries that the
    reset loop misses, the first call changes what the second returns: on
    the shared engine [Distance("bbé", "b")] is 3 and
    [Distance("b", "bbé")], called next, is 0.  Without stale entries the
    two outcomes are equal ([Distance_symmetric]). *)
Theorem Distance_asymmetric_after_call :
  (g ← tdl;
   '(v1, g) ← Distance_shortcut g bbe "b";
   '(v2, _) ← Distance_shortcut g "b" bbe;
   Some (v1, v2)) = Some (3, 0).
Proof. by vm_compute. Qed.

(** C10.  On a new engine [New(k)], [k >= 3], a call on non-empty strings
    of at most [k - 2] bytes does not panic (every index is in range) and
    returns a non-negative value. *)
Theorem Distance_fresh_in_bounds k t a b :
  New k = Some t → 3 <= k →
  a ≠ EmptyString → b ≠ EmptyString →
  len a <= k - 2 → len b <= k - 2 →
  ∃ v t', Distance t a b = Some (v, t') ∧ 0 <= v.
Proof.
  intros HN Hk Ha Hb Hla Hlb.
  destruct (New_Some _ _ HN) as (_ & Hmax & _).
  assert (1 <= len a) by (destruct a; [done|unfold len; simpl; lia]).
  assert (1 <= len b) by (destruct b; [done|unfold len; simpl; lia]).
  destruct (Distance_refines t a b) as (t' & Ht' & _);
    [by eapply New_wf|by eapply lastseen_clean_New|lia..|].
  exists (Spec.lw a b), t'. split; [done|]. apply D_nonneg.
Qed.

Lemma Distance_fresh_in_bounds_witness :
  ∃ t, New 3 = Some t ∧ ∃ v t', Distance t "a" "b" = Some (v, t') ∧ 0 <= v.
Proof.
  eexists. split; [reflexivity|].
  apply (Distance_fresh_in_bounds 3 _ "a" "b");
    [reflexivity|lia|discriminate|discriminate|vm_compute; discriminate..].
Defined.

(** * Further properties of the package *)

(** ** [minimum] *)

Lemma minimum_foldl (xs : list Z) (m0 : Z) :
  let r := foldl (λ min i, if i <? min then i else min) m0 xs in
  r <= m0 ∧ (∀ x, x ∈ xs → r <= x) ∧ (r = m0 ∨ r ∈ xs).
Proof.
  revert m0. induction xs as [|x xs IH]; intros m0; cbn [foldl].
  - split; [lia|]. split; [|by left]. intros x Hx. by apply elem_of_nil in Hx.
  - destruct (IH (if x <? m0 then x else m0)) as (Hle & Hall & Hin).
    destruct (Z.ltb_spec x m0).
    + split; [lia|]. split.
      * intros y [->|Hy]%elem_of_cons; [done|by apply Hall].
      * right. destruct Hin as [->|Hin]; [by left|by right].
    + split; [lia|]. split.
      * intros y [->|Hy]%elem_of_cons; [lia|by apply Hall].
      * destruct Hin as [->|Hin]; [by left|right; by right].
Qed.

(** X1.  [minimum] panics on an empty argument list, and otherwise returns
    one of its arguments that no other argument is below. *)
Theorem minimum_least (xs : list Z) :
  match minimum xs with
  | None => xs = []
  | Some m => m ∈ xs ∧ ∀ x, x ∈ xs → m <= x
  end.
Proof.
  destruct xs as [|x0 xs]; [done|]. unfold minimum. cbn [lookup list_lookup mbind option_bind].
  destruct (minimum_foldl (x0 :: xs) x0) as (Hle & Hall & Hin).
  split; [|done]. destruct Hin as [->|Hin]; [by left|done].
Qed.

(** ** Loops, once more *)

(** What a loop that returned has established: the invariant is carried
    through the iterations that returned. *)
Lemma iterate_tracks {S : Type} (Inv : Z → S → Prop)
    (body : Z → S → option S) n i s s' :
  Inv i s →
  (∀ x s s', i <= x < i + Z.of_nat n → Inv x s → body x s = Some s' →
             Inv (x + 1) s') →
  iterate n i body s = Some s' → Inv (i + Z.of_nat n) s'.
Proof.
  revert i s. induction n as [|n IH]; intros i s Hi Hstep; cbn [iterate].
  - intros [= <-]. by replace (i + Z.of_nat 0) with i by lia.
  - destruct (body i s) as [s1|] eqn:Hb; [|done]. cbn [mbind option_bind].
    intros Hit.
    replace (i + Z.of_nat (Datatypes.S n)) with (i + 1 + Z.of_nat n) by lia.
    apply (IH (i + 1) s1); [apply (Hstep i s); [lia|done..]| |done].
    intros x s0 s0' Hx. apply Hstep. lia.
Qed.

(** ** A call within [maxSize - 2] returns, stale entries or not *)

Section Returns.

Variables (a b : string) (k : nat).

Hypothesis HlenA : 1 <= len a <= Z.of_nat k - 2.
Hypothesis HlenB : 1 <= len b <= Z.of_nat k - 2.

Lemma inner_body_returns d i j m db :
  1 <= i <= len a → 1 <= j <= len b → square k m →
  (∀ c, 0 <= da_get d c <= Z.of_nat k - 2) → 0 <= db < Z.of_nat k →
  ∃ m' db', inner_body a b d i j (m, db) = Some (m', db') ∧
    square k m' ∧ 0 <= db' < Z.of_nat k.
Proof using HlenA HlenB.
  intros Hi Hj Hsq Hd Hdb. unfold inner_body.
  destruct (at1_is_Some b j Hj) as (bj & Hbj & _).
  destruct (at1_is_Some a i Hi) as (ai & Hai & _).
  rewrite !index_at1, Hbj, Hai. cbn [mbind option_bind].
  pose proof (Hd bj) as Hi1.
  assert (∃ cost db', (if ai =? bj then (0, j) else (1, db)) = (cost, db') ∧
                      0 <= db' < Z.of_nat k) as (cost & db' & -> & Hdb').
  { destruct (ai =? bj); eexists _, _; (split; [done|lia]). }
  destruct (mget_is_Some k m Hsq i j) as [x1 ->]; [lia..|].
  destruct (mget_is_Some k m Hsq (i + 1) j) as [x2 ->]; [lia..|].
  destruct (mget_is_Some k m Hsq i (j + 1)) as [x3 ->]; [lia..|].
  destruct (mget_is_Some k m Hsq (da_get d bj) db) as [x4 ->]; [lia..|].
  cbn [mbind option_bind]. rewrite minimum_4. cbn [mbind option_bind].
  destruct (mset_spec k m Hsq (i + 1) (j + 1)
              (Z.min (Z.min (x1 + cost) (x2 + 1))
                 (Z.min (x3 + 1)
                    (x4 + (i - da_get d bj - 1) + 1 + (j - db - 1)))))
    as (m' & -> & Hsq' & _); [lia..|].
  cbn [mbind option_bind]. by eexists _, _.
Qed.

Lemma outer_body_returns d i m :
  1 <= i <= len a → square k m →
  (∀ c, 0 <= da_get d c <= Z.of_nat k - 2) →
  ∃ m' d', outer_body a b (len b) i (m, d) = Some (m', d') ∧
    square k m' ∧ (∀ c, 0 <= da_get d' c <= Z.of_nat k - 2).
Proof using HlenA HlenB.
  intros Hi Hsq Hd. unfold outer_body.
  destruct (for_upto_inv
    (λ (_ : Z) (st : list (list Z) * Z),
       square k st.1 ∧ 0 <= st.2 < Z.of_nat k)
    (inner_body a b d i) 1 (len b) (m, 0))
    as ([m' db'] & -> & Hsq' & _); [lia|split; [done|simpl; lia]|..].
  - intros j [m0 db0] Hj [Hsq0 Hdb0]. cbn [fst snd] in *.
    destruct (inner_body_returns d i j m0 db0) as (m1 & db1 & -> & ? & ?);
      [done..|].
    by exists (m1, db1).
  - cbn [fst snd mbind option_bind] in *.
    destruct (at1_is_Some a i Hi) as (ai & Hai & _).
    rewrite index_at1, Hai. cbn [mbind option_bind].
    eexists _, _. split; [done|]. split; [done|].
    intros c. rewrite da_get_insert. destruct (decide _); [lia|apply Hd].
Qed.

Lemma main_loop_returns d m :
  square k m → (∀ c, 0 <= da_get d c <= Z.of_nat k - 2) →
  ∃ m' d', for_upto 1 (len a) (outer_body a b (len b)) (m, d) = Some (m', d') ∧
    square k m'.
Proof using HlenA HlenB.
  intros Hsq Hd.
  destruct (for_upto_inv
    (λ (_ : Z) (st : list (list Z) * gmap Z Z),
       square k st.1 ∧ ∀ c, 0 <= da_get st.2 c <= Z.of_nat k - 2)
    (outer_body a b (len b)) 1 (len a) (m, d))
    as ([m' d'] & Hloop & Hsq' & _); [lia|done|..].
  - intros i [m0 d0] Hi [Hsq0 Hd0]. cbn [fst snd] in *.
    destruct (outer_body_returns d0 i m0) as (m1 & d1 & -> & ? & ?); [done..|].
    by exists (m1, d1).
  - by exists m', d'.
Qed.

End Returns.

Lemma da_bounded_reset t a b c :
  da_bounded t → 0 <= da_get (reset_da (da t) a b) c <= Z.max 0 (maxSize t - 2).
Proof.
  intros Hd. rewrite da_get_reset. destruct (decide _); [lia|apply Hd].
Qed.

(** Stale entries are rows of earlier calls, all inside the matrix: they
    can spoil the value of a call, not make it panic. *)
Lemma Distance_returns t a b :
  wf_engine t → da_bounded t →
  1 <= len a <= maxSize t - 2 → 1 <= len b <= maxSize t - 2 →
  ∃ v t', Distance t a b = Some (v, t').
Proof.
  intros [Hk Hsq] Hd Ha Hb. set (k := Z.to_nat (maxSize t)) in *.
  assert (1 <= len a <= Z.of_nat k - 2) as Ha' by lia.
  assert (1 <= len b <= Z.of_nat k - 2) as Hb' by lia.
  unfold Distance.
  destruct (Z.ltb_spec (len a) 1); [lia|].
  destruct (Z.ltb_spec (len b) 1); [lia|].
  destruct (Z.ltb_spec (maxSize t) (len a)); [lia|].
  destruct (Z.ltb_spec (maxSize t) (len b)); [lia|].
  destruct (agrees_mset (bytes a) (bytes b) k (matrix t) (λ _ _, False) 0 0)
    as (m0 & Hs0 & Hsq0 & Hag0); [done|by intros ? ? []|lia|lia|].
  rewrite D_outside in Hs0 by lia. unfold Spec.inf in Hs0.
  fold (len a) (len b) in Hs0. rewrite Hs0. cbn [mbind option_bind].
  destruct (init_rows_spec a b k Ha' m0) as (m1 & -> & Hsq1 & Hag1); [done| |].
  { eapply agrees_weaken; [|exact Hag0]. region. }
  cbn [mbind option_bind].
  destruct (init_cols_spec a b k Ha' Hb' m1) as (m2 & -> & Hsq2 & _);
    [done..|].
  cbn [mbind option_bind].
  destruct (main_loop_returns a b k Ha' Hb' (reset_da (da t) a b) m2)
    as (m3 & d3 & -> & Hsq3); [done| |].
  { intros c. pose proof (da_bounded_reset t a b c Hd). lia. }
  cbn [mbind option_bind].
  destruct (mget_is_Some k m3 Hsq3 (len a + 1) (len b + 1)) as [v ->]; [lia..|].
  cbn [mbind option_bind]. eauto.
Qed.

(** A call that returned past the guards served lengths within
    [maxSize - 2], and wrote only rows of that call into the table. *)
Lemma Distance_da_bounded t a b v t' :
  wf_engine t → da_bounded t → Distance t a b = Some (v, t') → da_bounded t'.
Proof.
  intros Hwf Hd HD. pose proof (len_nonneg a). pose proof (len_nonneg b).
  destruct (decide (len a = 0)) as [Ha|Ha].
  { rewrite Distance_empty_a in HD by done. by injection HD as _ <-. }
  destruct (decide (len b = 0)) as [Hb|Hb].
  { rewrite Distance_empty_b in HD by done. by injection HD as _ <-. }
  destruct (decide (maxSize t < len a ∨ maxSize t < len b)) as [Hcap|Hcap].
  { rewrite Distance_over_capacity in HD by lia. by injection HD as _ <-. }
  destruct (decide (maxSize t - 1 <= len a ∨ maxSize t - 1 <= len b))
    as [Hedge|Hedge].
  { rewrite Distance_boundary_panics in HD by (done || lia). done. }
  revert HD. unfold Distance.
  destruct (Z.ltb_spec (len a) 1); [lia|].
  destruct (Z.ltb_spec (len b) 1); [lia|].
  destruct (Z.ltb_spec (maxSize t) (len a)); [lia|].
  destruct (Z.ltb_spec (maxSize t) (len b)); [lia|].
  intros (m0 & _ & Hb0)%bind_Some.
  apply bind_Some in Hb0 as (m1 & _ & Hb0).
  apply bind_Some in Hb0 as (m2 & _ & Hb0).
  apply bind_Some in Hb0 as ([m3 d3] & Hloop & Hb0).
  apply bind_Some in Hb0 as (v' & _ & [= _ <-]).
  unfold da_bounded. cbn [da maxSize].
  unfold for_upto in Hloop.
  apply (iterate_tracks
    (λ (_ : Z) (st : list (list Z) * gmap Z Z),
       ∀ c, 0 <= da_get st.2 c <= Z.max 0 (maxSize t - 2))
    (outer_body a b (len b)) (Z.to_nat (len a + 1 - 1)) 1
    (m2, reset_da (da t) a b) (m3, d3)); [| |exact Hloop].
  - intros c. by apply da_bounded_reset.
  - intros i [m d] [m' d'] Hi Hinv Hbody. cbn [fst snd] in *.
    unfold outer_body in Hbody.
    apply bind_Some in Hbody as ([m'' db] & _ & Hbody).
    apply bind_Some in Hbody as (ai & _ & [= _ <-]).
    intros c. rewrite da_get_insert. destruct (decide _); [lia|apply Hinv].
Qed.

Lemma New_da_bounded k t : New k = Some t → da_bounded t.
Proof.
  intros (_ & _ & Hd & _)%New_Some c. unfold da_get.
  rewrite Hd, lookup_empty. simpl. lia.
Qed.

(** ** Invariants of the engines a program holds *)

Lemma reachable_inv t : reachable t → wf_engine t ∧ da_bounded t.
Proof.
  induction 1 as [k t HN|t a b v t' _ [IHwf IHd] HD].
  - split; [by eapply New_wf|by eapply New_da_bounded].
  - split; [by destruct (Distance_wf _ _ _ _ _ IHwf HD)|].
    by eapply Distance_da_bounded.
Qed.

(** A table with an entry was written by a call that went past the guards
    and the border loops: the engine then serves some length. *)
Lemma reachable_da_empty_or t : reachable t → da t = ∅ ∨ 3 <= maxSize t.
Proof.
  induction 1 as [k t HN|t a b v t' Hr IH HD].
  - left. by apply New_Some in HN as (_ & _ & Hd & _).
  - destruct (Distance_wf _ _ _ _ _ (reachable_wf _ Hr) HD) as [_ Hmax].
    pose proof (len_nonneg a). pose proof (len_nonneg b).
    destruct (decide (len a = 0)) as [Ha|Ha].
    { rewrite Distance_empty_a in HD by done. by injection HD as _ <-. }
    destruct (decide (len b = 0)) as [Hb|Hb].
    { rewrite Distance_empty_b in HD by done. by injection HD as _ <-. }
    destruct (decide (maxSize t < len a ∨ maxSize t < len b)) as [Hcap|Hcap].
    { rewrite Distance_over_capacity in HD by lia. by injection HD as _ <-. }
    destruct (decide (maxSize t - 1 <= len a ∨ maxSize t - 1 <= len b))
      as [Hedge|Hedge].
    { rewrite Distance_boundary_panics in HD;
        [done|by apply reachable_wf|lia..]. }
    right. lia.
Qed.

(** X2.  Every engine built by [New] and used by calls that returned has a
    non-negative [maxSize], a matrix of [maxSize] rows of [maxSize] cells,
    and a table whose entries lie between 0 and [maxSize - 2]. *)
Theorem reachable_engine_invariant t :
  reachable t →
  0 <= maxSize t ∧
  length (matrix t) = Z.to_nat (maxSize t) ∧
  (∀ row, row ∈ matrix t → length row = Z.to_nat (maxSize t)) ∧
  (∀ c v, da t !! c = Some v → 0 <= v <= maxSize t - 2).
Proof.
  intros Hr. destruct (reachable_inv t Hr) as ([Hk [Hlen Hrows]] & Hd).
  split; [done|]. split; [done|]. split; [done|].
  intros c v Hc. pose proof (Hd c) as Hv. unfold da_get in Hv.
  rewrite Hc in Hv. simpl in Hv.
  destruct (reachable_da_empty_or t Hr) as [He|Hmax]; [|lia].
  by rewrite He, lookup_empty in Hc.
Qed.

Lemma reachable_engine10_used :
  New 10 = Some engine10 ∧ Distance engine10 bbe "b" = Some (3, engine10_used) ∧
  reachable engine10_used.
Proof.
  assert (New 10 = Some engine10) as HN by (by vm_compute).
  assert (Distance engine10 bbe "b" = Some (3, engine10_used)) as HD
    by (by vm_compute).
  split; [done|]. split; [done|].
  eapply reachable_Distance; [|exact HD]. by eapply reachable_New.
Defined.

Lemma reachable_engine_invariant_witness :
  da engine10_used !! 169 = Some 4 ∧
  0 <= maxSize engine10_used ∧
  length (matrix engine10_used) = Z.to_nat (maxSize engine10_used) ∧
  (∀ row, row ∈ matrix engine10_used →
          length row = Z.to_nat (maxSize engine10_used)) ∧
  (∀ c v, da engine10_used !! c = Some v → 0 <= v <= maxSize engine10_used - 2).
Proof.
  split; [by vm_compute|].
  apply reachable_engine_invariant, reachable_engine10_used.
Defined.

(** X3.  A call that returns leaves the capacity and the dimensions of the
    matrix as they were: the workspace is neither reallocated nor resized. *)
Theorem Distance_keeps_capacity t a b v t' :
  reachable t → Distance t a b = Some (v, t') →
  maxSize t' = maxSize t ∧
  length (matrix t') = length (matrix t) ∧
  length <$> matrix t' = length <$> matrix t.
Proof.
  intros Hr HD. pose proof (reachable_wf _ Hr) as [Hk [Hlen Hrows]].
  destruct (Distance_wf _ _ _ _ _ (reachable_wf _ Hr) HD)
    as [[_ [Hlen' Hrows']] Hmax].
  split; [done|]. split; [congruence|].
  apply list_eq. intros i. rewrite !list_lookup_fmap.
  destruct (matrix t' !! i) as [r'|] eqn:Hr', (matrix t !! i) as [r|] eqn:Hr0;
    simpl.
  - f_equal. rewrite (Hrows' r'), (Hrows r), Hmax; [done|..];
      by eapply list_elem_of_lookup_2.
  - apply lookup_lt_Some in Hr'. apply lookup_ge_None in Hr0. lia.
  - apply lookup_lt_Some in Hr0. apply lookup_ge_None in Hr'. lia.
  - done.
Qed.

Lemma Distance_keeps_capacity_witness :
  maxSize engine10_used = maxSize engine10 ∧
  length (matrix engine10_used) = length (matrix engine10) ∧
  length <$> matrix engine10_used = length <$> matrix engine10.
Proof.
  apply (Distance_keeps_capacity engine10 bbe "b" 3).
  - apply (reachable_New 10). by vm_compute.
  - apply reachable_engine10_used.
Defined.

(** X4.  On such an engine a call panics in exactly one case: both strings
    are non-empty and within [maxSize], and one of them has [maxSize - 1] or
    [maxSize] bytes.  Every other call returns, whatever earlier calls left
    in the table. *)
Theorem Distance_panics_iff t a b :
  reachable t →
  (Distance t a b = None ↔
   1 <= len a <= maxSize t ∧ 1 <= len b <= maxSize t ∧
   (maxSize t - 1 <= len a ∨ maxSize t - 1 <= len b)).
Proof.
  intros Hr. destruct (reachable_inv t Hr) as [Hwf Hd].
  pose proof (len_nonneg a). pose proof (len_nonneg b).
  split.
  - intros HD.
    destruct (decide (len a = 0)) as [Ha|Ha].
    { by rewrite Distance_empty_a in HD. }
    destruct (decide (len b = 0)) as [Hb|Hb].
    { by rewrite Distance_empty_b in HD. }
    destruct (decide (maxSize t < len a ∨ maxSize t < len b)) as [Hcap|Hcap].
    { rewrite Distance_over_capacity in HD by lia. done. }
    destruct (decide (maxSize t - 1 <= len a ∨ maxSize t - 1 <= len b))
      as [Hedge|Hedge]; [lia|].
    destruct (Distance_returns t a b) as (v & t' & Hv); [done|done|lia..|].
    by rewrite Hv in HD.
  - intros (Ha & Hb & Hedge). by apply Distance_boundary_panics.
Qed.

Lemma Distance_panics_iff_witness :
  Distance engine10_used "b" bbe = None ↔
  1 <= len "b" <= maxSize engine10_used ∧
  1 <= len bbe <= maxSize engine10_used ∧
  (maxSize engine10_used - 1 <= len "b" ∨ maxSize engine10_used - 1 <= len bbe).
Proof. apply Distance_panics_iff, reachable_engine10_used. Defined.

(** ** What a call leaves in the table *)

Lemma last_seen_upto_spec c s k :
  let p := Spec.last_seen_upto (Some c) s k in
  (p = 0 ∧ ∀ q, (q < k)%nat → s !! q ≠ Some c) ∨
  (1 <= p <= Z.of_nat k ∧ s !! Z.to_nat (p - 1) = Some c ∧
   ∀ q, (Z.to_nat p ≤ q < k)%nat → s !! q ≠ Some c).
Proof.
  induction k as [|k IH]; cbn [Spec.last_seen_upto].
  - left. split; [done|]. intros q Hq. lia.
  - destruct (decide (s !! k = Some c)) as [Hk|Hk].
    + right. split; [lia|]. split.
      * by replace (Z.to_nat (Z.of_nat (S k) - 1)) with k by lia.
      * intros q Hq. lia.
    + cbv zeta in IH. destruct IH as [[Hp Hno]|(Hp & Hat & Hno)].
      * left. split; [done|]. intros q Hq.
        destruct (decide (q = k)) as [->|]; [done|]. apply Hno. lia.
      * right. split; [lia|]. split; [done|]. intros q Hq.
        destruct (decide (q = k)) as [->|]; [done|]. apply Hno. lia.
Qed.

(** The table after the main loop: the last position in [a] for the bytes
    of [a], and what the reset loop left for every other key. *)
Lemma main_loop_da a b lenB m d m' d' c :
  for_upto 1 (len a) (outer_body a b lenB) (m, d) = Some (m', d') →
  da_get d' c =
    if decide (Spec.last_seen (Some c) (bytes a) (len a) = 0)
    then da_get d c
    else Spec.last_seen (Some c) (bytes a) (len a).
Proof.
  intros Hloop. unfold for_upto in Hloop. pose proof (len_nonneg a).
  pose proof (iterate_tracks
    (λ (i : Z) (st : list (list Z) * gmap Z Z),
       ∀ c, da_get st.2 c =
            if decide (Spec.last_seen (Some c) (bytes a) (i - 1) = 0)
            then da_get d c
            else Spec.last_seen (Some c) (bytes a) (i - 1))
    (outer_body a b lenB) (Z.to_nat (len a + 1 - 1)) 1 (m, d) (m', d'))
    as Hfin.
  cbn [snd] in Hfin.
  replace (1 + Z.of_nat (Z.to_nat (len a + 1 - 1)) - 1) with (len a) in Hfin
    by lia.
  apply Hfin; [| |done]; clear Hfin Hloop.
  - intros c0. by rewrite last_seen_0.
  - intros i [m0 d0] [m1 d1] Hi Hinv Hbody c0. cbn [fst snd] in *.
    unfold outer_body in Hbody.
    apply bind_Some in Hbody as ([m2 db] & _ & Hbody).
    apply bind_Some in Hbody as (ai & Hai & [= _ <-]).
    rewrite index_at1 in Hai.
    rewrite da_get_insert, Hinv.
    replace (i + 1 - 1) with (i - 1 + 1) by lia.
    rewrite (last_seen_succ (Some c0) (bytes a) (i - 1)) by lia.
    replace (i - 1 + 1) with i by lia. rewrite Hai.
    destruct (decide (ai = c0)) as [->|Hne].
    + destruct (decide (Some c0 = Some c0)); [|done].
      destruct (decide (i = 0)); [lia|done].
    + by destruct (decide (Some ai = Some c0)) as [[=]|_].
Qed.

(** X5.  After a call that went past the guards and returned, the table
    holds for every byte of [a] the position of its last occurrence in [a],
    counted from 1; every other key has what the reset loop left: 0 if it
    is a code point of [a + b], its old entry if not. *)
Theorem Distance_records_last_positions t a b v t' c :
  1 <= len a <= maxSize t → 1 <= len b <= maxSize t →
  Distance t a b = Some (v, t') →
  (c ∈ bytes a →
   ∃ p, da_get (da t') c = p ∧ 1 <= p <= len a ∧ index a (p - 1) = Some c ∧
        ∀ q, p < q <= len a → index a (q - 1) ≠ Some c) ∧
  (c ∉ bytes a →
   da_get (da t') c =
     if decide (c ∈ Utf8.runes (bytes a ++ bytes b)) then 0
     else da_get (da t) c).
Proof.
  intros Ha Hb. unfold Distance.
  destruct (Z.ltb_spec (len a) 1); [lia|].
  destruct (Z.ltb_spec (len b) 1); [lia|].
  destruct (Z.ltb_spec (maxSize t) (len a)); [lia|].
  destruct (Z.ltb_spec (maxSize t) (len b)); [lia|].
  intros (m0 & _ & Hb0)%bind_Some.
  apply bind_Some in Hb0 as (m1 & _ & Hb0).
  apply bind_Some in Hb0 as (m2 & _ & Hb0).
  apply bind_Some in Hb0 as ([m3 d3] & Hloop & Hb0).
  apply bind_Some in Hb0 as (v' & _ & [= _ <-]). cbn [da].
  rewrite (main_loop_da _ _ _ _ _ _ _ c Hloop).
  pose proof (last_seen_upto_spec c (bytes a) (Z.to_nat (len a))) as Hspec.
  cbv zeta in Hspec. fold (Spec.last_seen (Some c) (bytes a) (len a)) in Hspec.
  set (p := Spec.last_seen (Some c) (bytes a) (len a)) in *.
  split.
  - intros [q Hq]%list_elem_of_lookup_1.
    pose proof (lookup_lt_Some _ _ _ Hq) as Hlt. unfold len in *.
    destruct Hspec as [[Hp Hno]|(Hp & Hat & Hno)].
    { exfalso. apply (Hno q); [lia|done]. }
    destruct (decide (p = 0)); [lia|].
    exists p. split; [done|]. split; [lia|]. split.
    + unfold index. destruct (Z.ltb_spec (p - 1) 0); [lia|done].
    + intros q' Hq'. unfold index.
      destruct (Z.ltb_spec (q' - 1) 0); [lia|]. apply Hno. lia.
  - intros Hnot.
    destruct Hspec as [[Hp Hno]|(Hp & Hat & Hno)].
    + destruct (decide (p = 0)); [|done]. apply da_get_reset.
    + exfalso. apply Hnot. by eapply list_elem_of_lookup_2.
Qed.

Lemma Distance_records_last_positions_witness :
  (169 ∈ bytes bbe →
   ∃ p, da_get (da engine10_used) 169 = p ∧ 1 <= p <= len bbe ∧
        index bbe (p - 1) = Some 169 ∧
        ∀ q, p < q <= len bbe → index bbe (q - 1) ≠ Some 169) ∧
  (169 ∉ bytes bbe →
   da_get (da engine10_used) 169 =
     if decide (169 ∈ Utf8.runes (bytes bbe ++ bytes "b")) then 0
     else da_get (da engine10) 169).
Proof.
  apply (Distance_records_last_positions engine10 bbe "b" 3).
  - by vm_compute.
  - by vm_compute.
  - apply reachable_engine10_used.
Defined.

(** ** The value of a call: bounds, and when it is zero *)

Section RecurrenceBounds.

Variables a b : list Z.

Lemma D_fuel_outside fuel r c :
  r <= 0 ∨ c <= 0 → Spec.D_fuel a b fuel r c = Spec.inf a b.
Proof.
  intros Hrc. destruct fuel as [|f]; [done|]. rewrite D_fuel_S.
  destruct (Z.leb_spec r 0), (Z.leb_spec c 0); simpl; try done; lia.
Qed.

(** Substituting along the diagonal is always possible. *)
Lemma D_upper_max (i : nat) j :
  0 <= j → Spec.D a b (Z.of_nat i + 1) (j + 1) <= Z.max (Z.of_nat i) j.
Proof.
  revert j. induction i as [|i IH]; intros j Hj.
  - rewrite D_row1 by lia. lia.
  - replace (Z.of_nat (S i)) with (Z.of_nat i + 1) by lia.
    destruct (decide (j = 0)) as [->|Hj0].
    { rewrite D_col1 by lia. lia. }
    rewrite D_step by lia. cbv zeta.
    pose proof (IH (j - 1)) as IHj. replace (j - 1 + 1) with j in IHj by lia.
    pose proof (cost_bounds a b (Z.of_nat i + 1) j). lia.
Qed.

(** No edit closes more than one unit of the gap between the lengths. *)
Lemma D_fuel_lower fuel r c :
  1 <= r <= Z.of_nat (length a) + 1 → 1 <= c <= Z.of_nat (length b) + 1 →
  Z.abs (r - c) <= Spec.D_fuel a b fuel r c.
Proof.
  revert r c. induction fuel as [|f IH]; intros r c Hr Hc.
  - simpl. unfold Spec.inf. lia.
  - rewrite D_fuel_S.
    destruct (Z.leb_spec r 0), (Z.leb_spec c 0); simpl; try lia.
    destruct (Z.eqb_spec c 1); [lia|].
    destruct (Z.eqb_spec r 1); [lia|].
    pose proof (last_seen_bounds (Spec.at1 b (c - 1)) a (r - 1 - 1)) as Hi1.
    pose proof (last_seen_bounds (Spec.at1 a (r - 1)) b (c - 1 - 1)) as Hj1.
    set (i1 := Spec.last_seen _ a _) in *.
    set (j1 := Spec.last_seen _ b _) in *.
    pose proof (cost_bounds a b (r - 1) (c - 1)).
    pose proof (IH (r - 1) (c - 1)). pose proof (IH (r - 1 + 1) (c - 1)).
    pose proof (IH (r - 1) (c - 1 + 1)).
    assert (Z.abs (r - c) <=
            Spec.D_fuel a b f i1 j1 + (r - 1 - i1 - 1) + 1 + (c - 1 - j1 - 1)).
    { destruct (decide (i1 <= 0 ∨ j1 <= 0)) as [Hout|Hin].
      - rewrite D_fuel_outside by done. unfold Spec.inf. lia.
      - pose proof (IH i1 j1). lia. }
    lia.
Qed.

Lemma D_lower r c :
  1 <= r <= Z.of_nat (length a) + 1 → 1 <= c <= Z.of_nat (length b) + 1 →
  Z.abs (r - c) <= Spec.D a b r c.
Proof. apply D_fuel_lower. Qed.

(** A zero cell: the two prefixes are the same string. *)
Lemma D_zero_prefix (i : nat) j :
  0 <= j → (i ≤ length a)%nat → j <= Z.of_nat (length b) →
  Spec.D a b (Z.of_nat i + 1) (j + 1) = 0 →
  j = Z.of_nat i ∧ take i a = take i b.
Proof.
  revert j. induction i as [|i IH]; intros j Hj Hia Hjb HD.
  - rewrite D_row1 in HD by lia. split; [lia|done].
  - replace (Z.of_nat (S i)) with (Z.of_nat i + 1) in HD by lia.
    destruct (decide (j = 0)) as [->|Hj0].
    { rewrite D_col1 in HD by lia. lia. }
    rewrite D_step in HD by lia. cbv zeta in HD.
    pose proof (last_seen_bounds (Spec.at1 b j) a (Z.of_nat i + 1 - 1)) as Hi1.
    pose proof (last_seen_bounds (Spec.at1 a (Z.of_nat i + 1)) b (j - 1)) as Hj1.
    set (i1 := Spec.last_seen _ a _) in *.
    set (j1 := Spec.last_seen _ b _) in *.
    pose proof (D_nonneg a b (Z.of_nat i + 1) j).
    pose proof (D_nonneg a b (Z.of_nat i + 1 + 1) j).
    pose proof (D_nonneg a b (Z.of_nat i + 1) (j + 1)).
    pose proof (D_nonneg a b i1 j1).
    pose proof (cost_bounds a b (Z.of_nat i + 1) j) as Hcost.
    assert (Spec.D a b (Z.of_nat i + 1) j = 0 ∧
            Spec.cost a b (Z.of_nat i + 1) j = 0) as [HD0 Hc0] by lia.
    replace j with (j - 1 + 1) in HD0 by lia.
    destruct (IH (j - 1)) as [Hji Htake]; [lia..|done|].
    split; [lia|].
    unfold Spec.cost in Hc0. destruct (decide _) as [Heq|]; [|done].
    unfold Spec.at1 in Heq.
    destruct (Z.ltb_spec (Z.of_nat i + 1) 1), (Z.ltb_spec j 1); try lia.
    replace (Z.to_nat (Z.of_nat i + 1 - 1)) with i in Heq by lia.
    replace (Z.to_nat (j - 1)) with i in Heq by lia.
    destruct (lookup_lt_is_Some_2 a i) as [x Hx]; [lia|].
    rewrite Hx in Heq.
    rewrite (take_S_r a i x Hx), (take_S_r b i x); [|done].
    by rewrite Htake.
Qed.

End RecurrenceBounds.

Lemma byte_val_inj c1 c2 : byte_val c1 = byte_val c2 → c1 = c2.
Proof.
  unfold byte_val. intros H%(inj Z.of_N).
  by rewrite <- (ascii_N_embedding c1), <- (ascii_N_embedding c2), H.
Qed.

Lemma bytes_inj s1 s2 : bytes s1 = bytes s2 → s1 = s2.
Proof.
  revert s2. induction s1 as [|c1 s1 IH]; intros [|c2 s2]; simpl; try done.
  intros [= Hc Hs]. f_equal; [by apply byte_val_inj|by apply IH].
Qed.

Lemma lw_zero_iff a b : Spec.lw a b = 0 ↔ a = b.
Proof.
  unfold Spec.lw, len. split.
  - intros HD. apply bytes_inj.
    destruct (D_zero_prefix (bytes a) (bytes b) (length (bytes a))
                (Z.of_nat (length (bytes b)))) as [Hlen Htake];
      [lia|lia|lia|done|].
    rewrite take_ge in Htake by lia. rewrite Htake. apply take_ge. lia.
  - intros <-. apply D_diag.
Qed.

(** X6.  On an engine without stale entries for the strings at hand, a
    call within [maxSize - 2] returns a value between the difference of the
    two lengths and the greater of them. *)
Theorem Distance_between_length_bounds t a b :
  wf_engine t → lastseen_clean t a b →
  1 <= len a <= maxSize t - 2 → 1 <= len b <= maxSize t - 2 →
  ∃ v t', Distance t a b = Some (v, t') ∧
    Z.abs (len a - len b) <= v <= Z.max (len a) (len b).
Proof.
  intros Hwf Hclean Ha Hb.
  destruct (Distance_refines t a b) as (t' & Ht' & _); [done..|].
  exists (Spec.lw a b), t'. split; [done|]. unfold Spec.lw, len in *. split.
  - pose proof (D_lower (bytes a) (bytes b)
                  (Z.of_nat (length (bytes a)) + 1)
                  (Z.of_nat (length (bytes b)) + 1)). lia.
  - apply D_upper_max. lia.
Qed.

Lemma engine10_used_wf : wf_engine engine10_used.
Proof. apply reachable_wf, reachable_engine10_used. Defined.

Lemma Distance_between_length_bounds_witness :
  ∃ v t', Distance engine10_used "kitten" "sit" = Some (v, t') ∧
    Z.abs (len "kitten" - len "sit") <= v <= Z.max (len "kitten") (len "sit").
Proof.
  apply Distance_between_length_bounds.
  - apply engine10_used_wf.
  - apply lastseen_clean_ascii, ascii_only_Forall. vm_compute.
    repeat constructor.
  - by vm_compute.
  - by vm_compute.
Defined.

(** X7.  On an engine without stale entries for the strings at hand, a
    call within [maxSize - 2] returns 0 exactly when the two strings are the
    same sequence of bytes. *)
Theorem Distance_zero_iff_equal t a b :
  wf_engine t → lastseen_clean t a b →
  1 <= len a <= maxSize t - 2 → 1 <= len b <= maxSize t - 2 →
  ∃ v t', Distance t a b = Some (v, t') ∧ (v = 0 ↔ a = b).
Proof.
  intros Hwf Hclean Ha Hb.
  destruct (Distance_refines t a b) as (t' & Ht' & _); [done..|].
  exists (Spec.lw a b), t'. split; [done|]. apply lw_zero_iff.
Qed.

Lemma Distance_zero_iff_equal_witness :
  ∃ v t', Distance engine10_used "ab" "ba" = Some (v, t') ∧
    (v = 0 ↔ "ab" = "ba").
Proof.
  apply Distance_zero_iff_equal.
  - apply engine10_used_wf.
  - apply lastseen_clean_ascii, ascii_only_Forall. vm_compute.
    repeat constructor.
  - by vm_compute.
  - by vm_compute.
Defined.

(** ** Calls on used engines and on the shared engine *)

(** X8.  When the second string has bytes below [0x80] only, the outcome of
    a call (its value, or a panic) is the same on any two engines of equal
    [maxSize], whatever calls they served before. *)
Theorem Distance_ascii_history_independent t1 t2 a b :
  reachable t1 → reachable t2 → maxSize t1 = maxSize t2 → ascii_only b →
  result (Distance t1 a b) = result (Distance t2 a b).
Proof.
  intros Hr1 Hr2 Hmax Hb.
  apply Distance_history_independent;
    [by apply reachable_wf|by apply reachable_wf|done
    |by apply lastseen_clean_ascii|by apply lastseen_clean_ascii].
Qed.

Lemma Distance_ascii_history_independent_witness :
  result (Distance engine10 bbe "abc") = result (Distance engine10_used bbe "abc").
Proof.
  apply Distance_ascii_history_independent.
  - apply (reachable_New 10). by vm_compute.
  - apply reachable_engine10_used.
  - by vm_compute.
  - apply ascii_only_Forall. vm_compute. repeat constructor.
Defined.

(** X9.  When both strings have bytes below [0x80] only, exchanging them
    does not change the outcome, on used engines too: in particular
    [Distance(b, a)] called right after [Distance(a, b)] gives the same
    value. *)
Theorem Distance_ascii_symmetric t1 t2 a b :
  reachable t1 → reachable t2 → maxSize t1 = maxSize t2 →
  ascii_only a → ascii_only b →
  result (Distance t1 a b) = result (Distance t2 b a).
Proof.
  intros Hr1 Hr2 Hmax Ha Hb.
  apply Distance_symmetric;
    [by apply reachable_wf|by apply reachable_wf|done
    |by apply lastseen_clean_ascii|by apply lastseen_clean_ascii].
Qed.

Lemma Distance_ascii_symmetric_witness :
  result (Distance engine10 "ca" "abc") = result (Distance engine10_used "abc" "ca").
Proof.
  apply Distance_ascii_symmetric.
  - apply (reachable_New 10). by vm_compute.
  - apply reachable_engine10_used.
  - by vm_compute.
  - apply ascii_only_Forall. vm_compute. repeat constructor.
  - apply ascii_only_Forall. vm_compute. repeat constructor.
Defined.

(** X10.  On new engines of equal [maxSize] exchanging the strings does
    not change the outcome, for arbitrary bytes. *)
Theorem Distance_new_engine_symmetric k t1 t2 a b :
  New k = Some t1 → New k = Some t2 →
  result (Distance t1 a b) = result (Distance t2 b a).
Proof.
  intros HN1 HN2.
  destruct (New_Some _ _ HN1) as (_ & Hm1 & _).
  destruct (New_Some _ _ HN2) as (_ & Hm2 & _).
  apply Distance_symmetric;
    [by eapply New_wf|by eapply New_wf|congruence
    |by eapply lastseen_clean_New|by eapply lastseen_clean_New].
Qed.

Lemma Distance_new_engine_symmetric_witness :
  result (Distance engine10 bbe "b") = result (Distance engine10 "b" bbe).
Proof.
  apply (Distance_new_engine_symmetric 10); by vm_compute.
Defined.

(** X11.  The shortcut, on the shared engine of capacity 100 with no stale
    entry for the strings at hand (the first call; any call whose second
    string is ASCII): an empty operand gives the other length, a string of
    more than 100 bytes gives -1, a string of 99 or 100 bytes makes the call
    panic, and strings of up to 98 bytes give the value of the
    recurrence. *)
Theorem Distance_shortcut_outcomes g a b :
  reachable g → maxSize g = 100 → lastseen_clean g a b →
  result (Distance_shortcut g a b) =
    if len a =? 0 then Some (len b)
    else if len b =? 0 then Some (len a)
    else if (100 <? len a) || (100 <? len b) then Some (-1)
    else if (98 <? len a) || (98 <? len b) then None
    else Some (Spec.lw a b).
Proof.
  intros Hr Hmax Hclean. unfold Distance_shortcut.
  pose proof (len_nonneg a). pose proof (len_nonneg b).
  destruct (Distance_cases g a b (reachable_wf _ Hr) Hclean)
    as [(?&->)|[(?&?&->)|[(?&?&?&->)|[(?&?&?&->)|(?&?&->)]]]];
    destruct (Z.eqb_spec (len a) 0), (Z.eqb_spec (len b) 0),
      (Z.ltb_spec 100 (len a)), (Z.ltb_spec 100 (len b)),
      (Z.ltb_spec 98 (len a)), (Z.ltb_spec 98 (len b));
    simpl; first [done | exfalso; lia | f_equal; lia].
Qed.

Lemma Distance_shortcut_outcomes_witness :
  ∃ g, tdl = Some g ∧
    result (Distance_shortcut g bbe "b") =
      if len bbe =? 0 then Some (len "b")
      else if len "b" =? 0 then Some (len bbe)
      else if (100 <? len bbe) || (100 <? len "b") then Some (-1)
      else if (98 <? len bbe) || (98 <? len "b") then None
      else Some (Spec.lw bbe "b").
Proof.
  eexists. split; [reflexivity|].
  apply Distance_shortcut_outcomes.
  - apply (reachable_New 100). reflexivity.
  - reflexivity.
  - apply (lastseen_clean_New 100). reflexivity.
Defined.

(** ** One edit apart *)

Section Neighbours.

Variables a b : list Z.

(** The four moves of the recurrence, as inequalities between cells. *)
Lemma D_move_match i j :
  1 <= i → 1 <= j → Spec.at1 a i = Spec.at1 b j →
  Spec.D a b (i + 1) (j + 1) <= Spec.D a b i j.
Proof.
  intros Hi Hj Heq. rewrite D_step by done. cbv zeta.
  unfold Spec.cost. destruct (decide _); [lia|done].
Qed.

Lemma D_move_substitute i j :
  1 <= i → 1 <= j → Spec.D a b (i + 1) (j + 1) <= Spec.D a b i j + 1.
Proof.
  intros Hi Hj. rewrite D_step by done. cbv zeta.
  pose proof (cost_bounds a b i j). lia.
Qed.

Lemma D_move_insert r j :
  1 <= r → 1 <= j → Spec.D a b r (j + 1) <= Spec.D a b r j + 1.
Proof.
  intros Hr Hj. destruct (decide (r = 1)) as [->|Hr1].
  - rewrite !D_row1 by lia. lia.
  - replace r with (r - 1 + 1) at 1 by lia. rewrite D_step by lia. cbv zeta.
    replace (r - 1 + 1) with r by lia. lia.
Qed.

Lemma D_move_delete i c :
  1 <= i → 1 <= c → Spec.D a b (i + 1) c <= Spec.D a b i c + 1.
Proof.
  intros Hi Hc. destruct (decide (c = 1)) as [->|Hc1].
  - rewrite !D_col1 by lia. lia.
  - replace c with (c - 1 + 1) at 1 by lia. rewrite D_step by lia. cbv zeta.
    replace (c - 1 + 1) with c by lia. lia.
Qed.

Lemma D_move_transpose i j :
  1 <= i → 1 <= j →
  Spec.at1 a i = Spec.at1 b (j + 1) → Spec.at1 a (i + 1) = Spec.at1 b j →
  Spec.D a b (i + 2) (j + 2) <= Spec.D a b i j + 1.
Proof.
  intros Hi Hj Hx Hy.
  replace (i + 2) with (i + 1 + 1) by lia.
  replace (j + 2) with (j + 1 + 1) by lia.
  rewrite D_step by lia. cbv zeta.
  replace (i + 1 - 1) with (i - 1 + 1) by lia.
  replace (j + 1 - 1) with (j - 1 + 1) by lia.
  rewrite !last_seen_succ by lia.
  replace (i - 1 + 1) with i by lia. replace (j - 1 + 1) with j by lia.
  destruct (decide (Spec.at1 a i = Spec.at1 b (j + 1))); [|done].
  destruct (decide (Spec.at1 b j = Spec.at1 a (i + 1))); [|done].
  lia.
Qed.

(** A run of [n] matches, from cell [(r, c)] on. *)
Lemma D_walk (n : nat) r c :
  1 <= r → 1 <= c →
  (∀ q, 0 <= q < Z.of_nat n → Spec.at1 a (r + q) = Spec.at1 b (c + q)) →
  Spec.D a b (r + Z.of_nat n) (c + Z.of_nat n) <= Spec.D a b r c.
Proof.
  intros Hr Hc. induction n as [|n IH]; intros Heq.
  - replace (r + Z.of_nat 0) with r by lia.
    replace (c + Z.of_nat 0) with c by lia. lia.
  - replace (r + Z.of_nat (S n)) with (r + Z.of_nat n + 1) by lia.
    replace (c + Z.of_nat (S n)) with (c + Z.of_nat n + 1) by lia.
    etrans; [apply D_move_match; [lia|lia|apply Heq; lia]|].
    apply IH. intros q Hq. apply Heq. lia.
Qed.

End Neighbours.

Lemma at1_app_l u s p :
  1 <= p <= Z.of_nat (length u) → Spec.at1 (u ++ s) p = Spec.at1 u p.
Proof.
  intros Hp. unfold Spec.at1. destruct (Z.ltb_spec p 1); [done|].
  apply lookup_app_l. lia.
Qed.

Lemma at1_app_r u s p :
  1 <= p → Spec.at1 (u ++ s) (Z.of_nat (length u) + p) = Spec.at1 s p.
Proof.
  intros Hp. unfold Spec.at1.
  destruct (Z.ltb_spec (Z.of_nat (length u) + p) 1), (Z.ltb_spec p 1);
    try lia.
  rewrite lookup_app_r by lia. f_equal. lia.
Qed.

Lemma at1_cons x s p : 1 <= p → Spec.at1 (x :: s) (p + 1) = Spec.at1 s p.
Proof.
  intros Hp. unfold Spec.at1.
  destruct (Z.ltb_spec (p + 1) 1), (Z.ltb_spec p 1); try lia.
  replace (Z.to_nat (p + 1 - 1)) with (S (Z.to_nat (p - 1))) by lia. done.
Qed.

Lemma at1_head x s : Spec.at1 (x :: s) 1 = Some x.
Proof. done. Qed.

(** Two strings with a common prefix [u] and a common suffix [w] around
    the middles [ma] and [mb]: what the middle costs bounds the last
    cell. *)
Lemma D_prefix_suffix u ma mb w cost :
  let a := u ++ ma ++ w in
  let b := u ++ mb ++ w in
  let p := Z.of_nat (length u) in
  Spec.D a b (p + 1 + Z.of_nat (length ma)) (p + 1 + Z.of_nat (length mb))
    <= Spec.D a b (p + 1) (p + 1) + cost →
  Spec.D a b (Z.of_nat (length a) + 1) (Z.of_nat (length b) + 1) <= cost.
Proof.
  intros a b p Hmid.
  assert (Spec.D a b (p + 1) (p + 1) <= 0) as Hpre.
  { replace (p + 1) with (1 + Z.of_nat (length u)) by lia.
    etrans; [apply D_walk; [lia|lia|]|by rewrite D_col1 by lia].
    intros q Hq. unfold a, b.
    rewrite !at1_app_l by lia. done. }
  replace (Z.of_nat (length a) + 1)
    with (p + 1 + Z.of_nat (length ma) + Z.of_nat (length w))
    by (unfold a, p; rewrite !length_app; lia).
  replace (Z.of_nat (length b) + 1)
    with (p + 1 + Z.of_nat (length mb) + Z.of_nat (length w))
    by (unfold b, p; rewrite !length_app; lia).
  etrans; [apply D_walk; [lia|lia|]|lia].
  intros q Hq. unfold a, b, p.
  replace (Z.of_nat (length u) + 1 + Z.of_nat (length ma) + q)
    with (Z.of_nat (length u) + (Z.of_nat (length ma) + (1 + q))) by lia.
  replace (Z.of_nat (length u) + 1 + Z.of_nat (length mb) + q)
    with (Z.of_nat (length u) + (Z.of_nat (length mb) + (1 + q))) by lia.
  rewrite !at1_app_r by lia. done.
Qed.

Lemma bytes_app u v : bytes (u +:+ v) = bytes u ++ bytes v.
Proof. induction u as [|c u IH]; simpl; [done|by rewrite IH]. Qed.

Lemma lw_substitution u x y w :
  Spec.lw (u +:+ String x w) (u +:+ String y w) <= 1.
Proof.
  unfold Spec.lw, len. rewrite !bytes_app. cbn [bytes].
  apply (D_prefix_suffix (bytes u) [byte_val x] [byte_val y] (bytes w) 1).
  cbn [length]. apply D_move_substitute; lia.
Qed.

Lemma lw_insertion u x w : Spec.lw (u +:+ w) (u +:+ String x w) <= 1.
Proof.
  unfold Spec.lw, len. rewrite !bytes_app. cbn [bytes].
  apply (D_prefix_suffix (bytes u) [] [byte_val x] (bytes w) 1).
  cbn [length].
  replace (Z.of_nat (length (bytes u)) + 1 + Z.of_nat 0)
    with (Z.of_nat (length (bytes u)) + 1) by lia.
  apply D_move_insert; lia.
Qed.

Lemma lw_deletion u x w : Spec.lw (u +:+ String x w) (u +:+ w) <= 1.
Proof.
  unfold Spec.lw, len. rewrite !bytes_app. cbn [bytes].
  apply (D_prefix_suffix (bytes u) [byte_val x] [] (bytes w) 1).
  cbn [length].
  replace (Z.of_nat (length (bytes u)) + 1 + Z.of_nat 0)
    with (Z.of_nat (length (bytes u)) + 1) by lia.
  apply D_move_delete; lia.
Qed.

Lemma lw_transposition u x y w :
  Spec.lw (u +:+ String x (String y w)) (u +:+ String y (String x w)) <= 1.
Proof.
  unfold Spec.lw, len. rewrite !bytes_app. cbn [bytes].
  apply (D_prefix_suffix (bytes u) [byte_val x; byte_val y]
           [byte_val y; byte_val x] (bytes w) 1).
  cbn [length].
  replace (Z.of_nat (length (bytes u)) + 1 + Z.of_nat 2)
    with (Z.of_nat (length (bytes u)) + 1 + 2) by lia.
  apply D_move_transpose; [lia|lia|..].
  - replace (Z.of_nat (length (bytes u)) + 1 + 1)
      with (Z.of_nat (length (bytes u)) + (1 + 1)) by lia.
    rewrite !at1_app_r by lia. done.
  - replace (Z.of_nat (length (bytes u)) + 1 + 1)
      with (Z.of_nat (length (bytes u)) + (1 + 1)) by lia.
    rewrite !at1_app_r by lia. done.
Qed.

(** Two different strings whose recurrence is at most 1. *)
Lemma Distance_value_1 t a b :
  wf_engine t → lastseen_clean t a b →
  len a <= maxSize t - 2 → len b <= maxSize t - 2 →
  a ≠ b → Spec.lw a b <= 1 →
  (len a = 0 → len b = 1) → (len b = 0 → len a = 1) →
  result (Distance t a b) = Some 1.
Proof.
  intros Hwf Hclean Ha Hb Hne Hle Ha0 Hb0.
  pose proof (len_nonneg a). pose proof (len_nonneg b).
  destruct (decide (len a = 0)) as [Hza|Hza].
  { rewrite Distance_empty_a by done. simpl. by rewrite Ha0. }
  destruct (decide (len b = 0)) as [Hzb|Hzb].
  { rewrite Distance_empty_b by done. simpl. by rewrite Hb0. }
  destruct (Distance_refines t a b) as (t' & -> & _); [done|done|lia..|].
  simpl. f_equal.
  pose proof (D_nonneg (bytes a) (bytes b) (len a + 1) (len b + 1)) as Hnn.
  fold (Spec.lw a b) in Hnn.
  destruct (decide (Spec.lw a b = 0)) as [Hz|Hz]; [|lia].
  by apply lw_zero_iff in Hz.
Qed.

Lemma len_app u v : len (u +:+ v) = len u + len v.
Proof. unfold len. rewrite bytes_app, length_app. lia. Qed.

Lemma append_inv_head u v1 v2 : u +:+ v1 = u +:+ v2 → v1 = v2.
Proof.
  intros H. apply bytes_inj. apply (f_equal bytes) in H.
  rewrite !bytes_app in H. by apply app_inv_head in H.
Qed.

(** X12.  Replacing one byte by a different one gives distance 1 (on an
    engine without stale entries for the strings, within
    [maxSize - 2]). *)
Theorem Distance_one_substitution t u x y w :
  wf_engine t →
  lastseen_clean t (u +:+ String x w) (u +:+ String y w) →
  len (u +:+ String x w) <= maxSize t - 2 → x ≠ y →
  result (Distance t (u +:+ String x w) (u +:+ String y w)) = Some 1.
Proof.
  intros Hwf Hclean Hlen Hxy.
  assert (len (u +:+ String y w) = len (u +:+ String x w)) as Hl
    by (rewrite !len_app; unfold len; simpl; lia).
  pose proof (len_nonneg u).
  apply Distance_value_1; [done|done|lia|lia| |apply lw_substitution|..].
  - intros [= ->]%append_inv_head. done.
  - rewrite len_app. unfold len at 2. simpl. lia.
  - rewrite len_app. unfold len at 2. simpl. lia.
Qed.

Lemma Distance_one_substitution_witness :
  result (Distance engine10_used ("bo" +:+ String "o" "k")
                                 ("bo" +:+ String "a" "k")) = Some 1.
Proof.
  apply Distance_one_substitution.
  - apply engine10_used_wf.
  - apply lastseen_clean_ascii, ascii_only_Forall. vm_compute.
    repeat constructor.
  - by vm_compute.
  - discriminate.
Defined.

(** X13.  Inserting one byte gives distance 1, also into the empty
    string. *)
Theorem Distance_one_insertion t u x w :
  wf_engine t →
  lastseen_clean t (u +:+ w) (u +:+ String x w) →
  len (u +:+ String x w) <= maxSize t - 2 →
  result (Distance t (u +:+ w) (u +:+ String x w)) = Some 1.
Proof.
  intros Hwf Hclean Hlen.
  assert (len (u +:+ String x w) = len (u +:+ w) + 1) as Hl
    by (rewrite !len_app; unfold len; simpl; lia).
  pose proof (len_nonneg (u +:+ w)).
  apply Distance_value_1; [done|done|lia|lia| |apply lw_insertion|lia|lia].
  intros Heq. rewrite <- Heq in Hl. lia.
Qed.

Lemma Distance_one_insertion_witness :
  result (Distance engine10_used ("a" +:+ " cat") ("a" +:+ String "n" " cat"))
    = Some 1.
Proof.
  apply Distance_one_insertion.
  - apply engine10_used_wf.
  - apply lastseen_clean_ascii, ascii_only_Forall. vm_compute.
    repeat constructor.
  - by vm_compute.
Defined.

(** X14.  Deleting one byte gives distance 1, also when nothing is
    left. *)
Theorem Distance_one_deletion t u x w :
  wf_engine t →
  lastseen_clean t (u +:+ String x w) (u +:+ w) →
  len (u +:+ String x w) <= maxSize t - 2 →
  result (Distance t (u +:+ String x w) (u +:+ w)) = Some 1.
Proof.
  intros Hwf Hclean Hlen.
  assert (len (u +:+ String x w) = len (u +:+ w) + 1) as Hl
    by (rewrite !len_app; unfold len; simpl; lia).
  pose proof (len_nonneg (u +:+ w)).
  apply Distance_value_1; [done|done|lia|lia| |apply lw_deletion|lia|lia].
  intros Heq. rewrite Heq in Hl. lia.
Qed.

Lemma Distance_one_deletion_witness :
  result (Distance engine10_used ("sit" +:+ String "t" "ing") ("sit" +:+ "ing"))
    = Some 1.
Proof.
  apply Distance_one_deletion.
  - apply engine10_used_wf.
  - apply lastseen_clean_ascii, ascii_only_Forall. vm_compute.
    repeat constructor.
  - by vm_compute.
Defined.

(** X15.  Exchanging two adjacent different bytes gives distance 1, not
    the 2 of two substitutions. *)
Theorem Distance_one_transposition t u x y w :
  wf_engine t →
  lastseen_clean t (u +:+ String x (String y w)) (u +:+ String y (String x w)) →
  len (u +:+ String x (String y w)) <= maxSize t - 2 → x ≠ y →
  result (Distance t (u +:+ String x (String y w))
                     (u +:+ String y (String x w))) = Some 1.
Proof.
  intros Hwf Hclean Hlen Hxy.
  assert (len (u +:+ String y (String x w)) =
          len (u +:+ String x (String y w))) as Hl
    by (rewrite !len_app; unfold len; simpl; lia).
  pose proof (len_nonneg u).
  apply Distance_value_1; [done|done|lia|lia| |apply lw_transposition|..].
  - intros [= -> _]%append_inv_head. done.
  - rewrite len_app. unfold len at 2. simpl. lia.
  - rewrite len_app. unfold len at 2. simpl. lia.
Qed.

Lemma Distance_one_transposition_witness :
  result (Distance engine10_used ("an " +:+ String "c" (String "a" "t"))
                                 ("an " +:+ String "a" (String "c" "t")))
    = Some 1.
Proof.
  apply Distance_one_transposition.
  - apply engine10_used_wf.
  - apply lastseen_clean_ascii, ascii_only_Forall. vm_compute.
    repeat constructor.
  - by vm_compute.
  - discriminate.
Defined.

(** ** Engines too small to serve *)

(** X16.  An engine with [maxSize] of 2 or less computes no distance: on
    two non-empty strings the call returns -1 when one of them is longer
    than [maxSize], and panics otherwise. *)
Theorem Distance_small_engine t a b :
  reachable t → maxSize t <= 2 → a ≠ EmptyString → b ≠ EmptyString →
  if (maxSize t <? len a) || (maxSize t <? len b)
  then Distance t a b = Some (-1, t)
  else Distance t a b = None.
Proof.
  intros Hr Hmax Ha Hb.
  assert (1 <= len a) by (destruct a; [done|unfold len; simpl; lia]).
  assert (1 <= len b) by (destruct b; [done|unfold len; simpl; lia]).
  destruct (Z.ltb_spec (maxSize t) (len a)), (Z.ltb_spec (maxSize t) (len b));
    simpl; try (apply Distance_over_capacity; lia).
  apply Distance_boundary_panics; [by apply reachable_wf|lia..].
Qed.

Lemma Distance_small_engine_witness :
  New 2 = Some (mkTDL 2 [[0; 0]; [0; 0]] ∅) ∧
  Distance (mkTDL 2 [[0; 0]; [0; 0]] ∅) "a" "b" = None.
Proof.
  split; [reflexivity|].
  exact (Distance_small_engine (mkTDL 2 [[0; 0]; [0; 0]] ∅) "a" "b"
           (reachable_New 2 _ eq_refl)
           ltac:(simpl; lia) ltac:(discriminate) ltac:(discriminate)).
Defined.
